(** * The TTS playback core of the read-frog browser extension

    Shallow embedding of
    [apps/extension/src/entrypoints/selection.content/selection-toolbar/audio-manager.ts]
    (text chunking, the render request, the shared "current audio" reference and
    [playTextWithTTS]) and of the [AudioCache] wrapper that the translate popover
    passes to it ([translate-button.tsx]).

    JavaScript strings are modelled as lists of UTF-16 code units ([N]); their
    [length] is the list length. *)

From Stdlib Require Import List NArith ZArith String Ascii Bool Lia.
Import ListNotations.

Module JStr.

Definition jstr := list N.

(** A Rocq (ASCII) string literal as a JS string. *)
Definition u (s : string) : jstr :=
  map (fun c => N.of_nat (nat_of_ascii c)) (list_ascii_of_string s).

(** ECMAScript WhiteSpace and LineTerminator code units: the class [\s] of
    regular expressions and the characters removed by [String.prototype.trim]. *)
Definition is_ws (c : N) : bool :=
  match c with
  | 9 | 10 | 11 | 12 | 13 | 32 | 160 | 5760 | 8239 | 8287 | 8232 | 8233
  | 12288 | 65279 => true
  | _ => (8192 <=? c) && (c <=? 8202)
  end%N.

(** The class [[.!?\n]]. *)
Definition is_sentence_punct (c : N) : bool :=
  match c with
  | 46 | 33 | 63 | 10 => true
  | _ => false
  end%N.

(** Length of the longest prefix of [s] whose code units satisfy [p]. *)
Fixpoint span (p : N -> bool) (s : jstr) : nat :=
  match s with
  | [] => O
  | c :: t => if p c then S (span p t) else O
  end.

(** Matchers of a regular expression anchored at the start of the input:
    the length of the (greedy) match, [0] when there is none.  Neither
    expression below matches the empty string. *)

(** [/\s+/] *)
Definition match_ws (s : jstr) : nat := span is_ws s.

(** [/[.!?\n]+\s*/] *)
Definition match_sentence_sep (s : jstr) : nat :=
  match span is_sentence_punct s with
  | O => O
  | n => n + span is_ws (skipn n s)
  end.

(** [String.prototype.split] with a regular expression made of one capturing
    group around the whole pattern (RegExp.prototype[@@split]): the pieces
    between matches, each followed by the captured separator.  [piece] is the
    text since the end of the last match; [fuel] bounds the scan. *)
Fixpoint split_go (m : jstr -> nat) (fuel : nat) (piece s : jstr) : list jstr :=
  match fuel with
  | O => [piece ++ s]
  | S fuel' =>
      match s with
      | [] => [piece]
      | c :: t =>
          match m s with
          | O => split_go m fuel' (piece ++ [c]) t
          | k => piece :: firstn k s :: split_go m fuel' [] (skipn k s)
          end
      end
  end.

Definition regex_split (m : jstr -> nat) (s : jstr) : list jstr :=
  split_go m (S (List.length s)) [] s.

Fixpoint drop_ws (s : jstr) : jstr :=
  match s with
  | [] => []
  | c :: t => if is_ws c then drop_ws t else s
  end.

(** [String.prototype.trim] *)
Definition trim (s : jstr) : jstr := rev (drop_ws (rev (drop_ws s))).

(** Truthiness of a string: [if (s)]. *)
Definition truthy (s : jstr) : bool :=
  match s with [] => false | _ => true end.

Definition len (s : jstr) : Z := Z.of_nat (List.length s).

(** [Array.prototype.join(' ')] *)
Fixpoint join_sp (l : list jstr) : jstr :=
  match l with
  | [] => []
  | [x] => x
  | x :: r => x ++ [32%N] ++ join_sp r
  end.

(** The non-whitespace code units of a string, in order. *)
Definition non_ws (s : jstr) : jstr := filter (fun c => negb (is_ws c)) s.

Definition all_ws (s : jstr) : Prop := forall c, In c s -> is_ws c = true.
Definition infix (x s : jstr) : Prop := exists p q, s = p ++ x ++ q.

End JStr.

Module Chunker.
Local Open Scope Z_scope.
Import JStr.

(** [const MAX_TTS_CHARACTERS = 4096] *)
Definition MAX_TTS_CHARACTERS : Z := 4096.

(** The two mutable locals of the loops of [splitTextForTTS]. *)
Record ChunkState := mkCS { chunks : list jstr; currentChunk : jstr }.

(** [chunks.push(currentChunk.trim())] *)
Definition push_current (st : ChunkState) : list jstr :=
  chunks st ++ [trim (currentChunk st)].

(** One iteration of [for (const word of words)]. *)
Definition word_step (maxChars : Z) (st : ChunkState) (word : jstr) : ChunkState :=
  if len (currentChunk st) + len word >? maxChars then
    mkCS (if truthy (currentChunk st) then push_current st else chunks st) word
  else mkCS (chunks st) (currentChunk st ++ word).

(** One iteration of the loop over [sentences]. *)
Definition sentence_step (maxChars : Z) (st : ChunkState) (sentence : jstr)
  : ChunkState :=
  if negb (truthy sentence) then st
  else if len sentence >? maxChars then
    let st1 := if truthy (currentChunk st) then mkCS (push_current st) [] else st in
    fold_left (word_step maxChars) (regex_split match_ws sentence) st1
  else if len (currentChunk st) + len sentence >? maxChars then
    mkCS (push_current st) sentence
  else mkCS (chunks st) (currentChunk st ++ sentence).

Definition splitTextForTTS (text : jstr) (maxChars : Z) : list jstr :=
  if len text <=? maxChars then [text]
  else
    let st := fold_left (sentence_step maxChars)
                (regex_split match_sentence_sep text) (mkCS [] []) in
    let final := if truthy (currentChunk st) then push_current st else chunks st in
    filter (fun chunk => len chunk >? 0) final.

Example split_sentences :
  regex_split match_sentence_sep (u "Hi. Yes!! ok") = [u "Hi"; u ". "; u "Yes"; u "!! "; u "ok"].
Proof. reflexivity. Qed.

Example split_words : regex_split match_ws (u " a  b") = [u ""; u " "; u "a"; u "  "; u "b"].
Proof. reflexivity. Qed.

Example chunk_ex1 : splitTextForTTS (u "aaaa. bb") 3 = [u "aaaa"; u "."; u "bb"].
Proof. reflexivity. Qed.

Example chunk_ex2 : splitTextForTTS (u "One. Two three. Four") 9 = [u "One."; u "Two three"; u ". Four"].
Proof. reflexivity. Qed.

End Chunker.

(** ** Values, requests and the render call *)
Module Tts.
Local Set Warnings "-register-all".
Import JStr Chunker.
Local Open Scope Z_scope.

(** JavaScript numbers (IEEE doubles).  Only their rendering and truthiness
    matter here; they are kept abstract behind this class. *)
Class JSNumber (Number : Type) := {
  Number_toString : Number -> jstr;  (** [Number::toString] *)
  Number_toJSON : Number -> jstr;    (** [JSON.stringify] of a number ("null" if not finite) *)
  Number_truthy : Number -> bool     (** false exactly on [0], [-0] and [NaN] *)
}.

Section Model.
Context {Number : Type} `{JSNumber Number}.

(** Values produced by [response.json()]. *)
Inductive json : Type :=
| JNull
| JBool (b : bool)
| JNum (n : Number)
| JStr (s : jstr)
| JArr (l : list json)
| JObj (fields : list (jstr * json)).

(** A JavaScript value read from such a value. *)
Inductive jsval : Type :=
| JUndefined
| JVal (j : json).

Inductive JsError : Type :=
| Error (message : jstr)        (** [new Error(message)] *)
| TypeError                     (** property read on [null]/[undefined]; failed [fetch] *)
| DOMException (name : jstr).   (** e.g. [NotAllowedError] from [audio.play()] *)

Definition jstr_eqb (a b : jstr) : bool :=
  if list_eq_dec N.eq_dec a b then true else false.

(** Own property of a parsed object; [JSON.parse] keeps the last duplicate. *)
Definition lookup_field (k : jstr) (fields : list (jstr * json)) : option json :=
  fold_left (fun acc kv => if jstr_eqb k (fst kv) then Some (snd kv) else acc) fields None.

(** [v.k] for the names read here (["error"], ["message"]), which no prototype of
    a JSON value defines; [None] is the [TypeError] thrown on [null]/[undefined]. *)
Definition get_prop (v : jsval) (k : jstr) : option jsval :=
  match v with
  | JUndefined | JVal JNull => None
  | JVal (JObj fields) =>
      Some (match lookup_field k fields with Some j => JVal j | None => JUndefined end)
  | JVal _ => Some JUndefined
  end.

(** [v?.k] *)
Definition opt_get_prop (v : jsval) (k : jstr) : jsval :=
  match get_prop v k with Some r => r | None => JUndefined end.

Definition js_truthy (v : jsval) : bool :=
  match v with
  | JUndefined | JVal JNull => false
  | JVal (JBool b) => b
  | JVal (JNum n) => Number_truthy n
  | JVal (JStr s) => truthy s
  | JVal (JArr _) | JVal (JObj _) => true
  end.

(** [Array.prototype.join(',')] *)
Fixpoint join_comma (l : list jstr) : jstr :=
  match l with
  | [] => []
  | [x] => x
  | x :: r => x ++ [44%N] ++ join_comma r
  end.

(** [ToString] of a JSON value. *)
Fixpoint json_to_string (j : json) : jstr :=
  match j with
  | JNull => u "null"
  | JBool true => u "true"
  | JBool false => u "false"
  | JNum n => Number_toString n
  | JStr s => s
  | JArr l => join_comma (map (fun x => match x with JNull => [] | _ => json_to_string x end) l)
  | JObj _ => u "[object Object]"
  end.

Definition js_to_string (v : jsval) : jstr :=
  match v with JUndefined => u "undefined" | JVal j => json_to_string j end.

(** Decimal rendering of an integer (template literal of [response.status]). *)
Fixpoint N_digits (fuel : nat) (n : N) (acc : jstr) : jstr :=
  match fuel with
  | O => acc
  | S f =>
      let acc' := (48 + N.modulo n 10)%N :: acc in
      if (n <? 10)%N then acc' else N_digits f (n / 10)%N acc'
  end.

Definition Z_to_dec (z : Z) : jstr :=
  let d := fun n => N_digits (S (N.size_nat n)) n [] in
  if z <? 0 then 45%N :: d (Z.to_N (- z)) else d (Z.to_N z).

(** [JSON.stringify] of a string. *)
Definition hex_digit (n : N) : N := if (n <? 10)%N then (48 + n)%N else (87 + n)%N.

Definition u_escape (c : N) : jstr :=
  [92; 117; hex_digit (N.modulo (c / 4096) 16); hex_digit (N.modulo (c / 256) 16);
   hex_digit (N.modulo (c / 16) 16); hex_digit (N.modulo c 16)]%N.

Definition escape_unit (c : N) : jstr :=
  match c with
  | 34 => [92; 34] | 92 => [92; 92] | 8 => [92; 98] | 12 => [92; 102]
  | 10 => [92; 110] | 13 => [92; 114] | 9 => [92; 116]
  | _ => if (c <? 32)%N then u_escape c else [c]
  end%N.

Definition is_high_surrogate (c : N) : bool := ((55296 <=? c) && (c <=? 56319))%N.
Definition is_low_surrogate (c : N) : bool := ((56320 <=? c) && (c <=? 57343))%N.

Fixpoint quote_units (s : jstr) : jstr :=
  match s with
  | [] => []
  | c :: t =>
      if is_high_surrogate c then
        match t with
        | d :: t' => if is_low_surrogate d then c :: d :: quote_units t'
                     else u_escape c ++ quote_units t
        | [] => u_escape c
        end
      else if is_low_surrogate c then u_escape c ++ quote_units t
      else escape_unit c ++ quote_units t
  end.

Definition json_string (s : jstr) : jstr := [34%N] ++ quote_units s ++ [34%N].

(** [JSON.stringify] of an object literal whose values are already serialised. *)
Definition json_object (fields : list (string * jstr)) : jstr :=
  [123%N] ++ join_comma (map (fun kv => json_string (u (fst kv)) ++ [58%N] ++ snd kv) fields)
  ++ [125%N].

(** [TTSModel] ([ttsModelSchema]) *)
Inductive TTSModel := tts_1 | tts_1_hd | gpt_4o_mini_tts.

Definition TTSModel_str (m : TTSModel) : jstr :=
  match m with
  | tts_1 => u "tts-1"
  | tts_1_hd => u "tts-1-hd"
  | gpt_4o_mini_tts => u "gpt-4o-mini-tts"
  end.

(** [JSON.stringify({ text: chunk, model, voice, speed })] *)
Definition cacheKey (text : jstr) (model : TTSModel) (voice : jstr) (speed : Number) : jstr :=
  json_object [("text"%string, json_string text); ("model"%string, json_string (TTSModel_str model));
               ("voice"%string, json_string voice); ("speed"%string, Number_toJSON speed)].

Definition Blob := list Byte.byte.

(** The request issued by [fetch(`${baseURL}/audio/speech`, {...})]. *)
Record FetchRequest := mkRequest {
  req_url : jstr;
  req_method : jstr;
  req_authorization : jstr;
  req_content_type : jstr;
  req_body : jstr
}.

Record Response := mkResponse {
  status : Z;
  body_json : option json;   (** [None]: [response.json()] rejects *)
  body_blob : Blob
}.

Definition response_ok (r : Response) : bool := (200 <=? status r) && (status r <=? 299).

Inductive FetchOutcome :=
| FetchRejected (e : JsError)
| Responded (r : Response).

Definition speech_request (text apiKey baseURL : jstr) (model : TTSModel) (voice : jstr)
  (speed : Number) : FetchRequest :=
  mkRequest (baseURL ++ u "/audio/speech") (u "POST") (u "Bearer " ++ apiKey)
    (u "application/json")
    (json_object [("model"%string, json_string (TTSModel_str model)); ("input"%string, json_string text);
                  ("voice"%string, json_string voice); ("speed"%string, Number_toJSON speed)]).

(** The [!response.ok] branch of [fetchAudioFromAPI]: the error thrown. *)
Definition http_error (r : Response) : JsError :=
  let errorData := match body_json r with Some j => JVal j | None => JVal (JObj []) end in
  match get_prop errorData (u "error") with
  | None => TypeError
  | Some e =>
      let m := opt_get_prop e (u "message") in
      Error (if js_truthy m then js_to_string m
             else u "HTTP error! status: " ++ Z_to_dec (status r))
  end.

(** *** The audio cache *)

(** A cache entry: the object URL (an index into the registry of
    [URL.createObjectURL]) and the blob it was made from. *)
Record CachedAudio := mkCached { ca_url : nat; ca_blob : Blob }.

(** Modelled from the spec: [LRUCache] of [@/utils/data-structure/rlu], whose
    source is not among the sources.  The spec's "LRU store": an ordered mapping
    bounded at its capacity; a [get] hit promotes the entry to most recently
    used; a [set] inserts or overwrites (and touches); inserting a new key at
    capacity evicts the least recently touched entry.  Entries are kept most
    recently used first. *)
Record LRUCache (V : Type) := mkLRU { lru_capacity : nat; lru_entries : list (jstr * V) }.
Arguments mkLRU {V}.
Arguments lru_capacity {V}.
Arguments lru_entries {V}.

Fixpoint assoc {V} (k : jstr) (l : list (jstr * V)) : option V :=
  match l with
  | [] => None
  | kv :: t => if jstr_eqb k (fst kv) then Some (snd kv) else assoc k t
  end.

Definition lru_remove {V} (k : jstr) (l : list (jstr * V)) : list (jstr * V) :=
  filter (fun kv => negb (jstr_eqb k (fst kv))) l.

Definition lru_size {V} (c : LRUCache V) : nat := List.length (lru_entries c).

Definition lru_get {V} (k : jstr) (c : LRUCache V) : option V * LRUCache V :=
  match assoc k (lru_entries c) with
  | Some v => (Some v, mkLRU (lru_capacity c) ((k, v) :: lru_remove k (lru_entries c)))
  | None => (None, c)
  end.

Definition lru_set {V} (k : jstr) (v : V) (c : LRUCache V) : LRUCache V :=
  match assoc k (lru_entries c) with
  | Some _ => mkLRU (lru_capacity c) ((k, v) :: lru_remove k (lru_entries c))
  | None =>
      let kept := if (lru_capacity c <=? List.length (lru_entries c))%nat
                  then removelast (lru_entries c) else lru_entries c in
      mkLRU (lru_capacity c) ((k, v) :: kept)
  end.

Definition lru_clear {V} (c : LRUCache V) : LRUCache V := mkLRU (lru_capacity c) [].

(** [class AudioCache] of [translate-button.tsx]. *)
Definition AudioCache := LRUCache CachedAudio.

(** [new AudioCache()]: [new LRUCache<string, CachedAudio>(10)] *)
Definition new_AudioCache : AudioCache := mkLRU 10 [].

Definition AudioCache_get (key : jstr) (c : AudioCache) : option CachedAudio * AudioCache :=
  lru_get key c.

(** [set]: the branch taken when the size did not grow has an empty body (its
    comments say the blob is left to garbage collection). *)
Definition AudioCache_set (key : jstr) (value : CachedAudio) (c : AudioCache) : AudioCache :=
  let oldSize := lru_size c in
  let c' := lru_set key value c in
  if (oldSize =? lru_size c')%nat && (0 <? oldSize)%nat then c' else c'.

Definition AudioCache_clear (c : AudioCache) : AudioCache := lru_clear c.

(** *** Audio elements and the world *)

Inductive AudioStatus := Idle | PlayPending | Playing | Paused | Ended | Errored.

(** The closures installed as [onended]/[onerror]: those of the multi-chunk
    loop (which resolve or reject the chunk's promise) and [cleanup] of the
    single-chunk path. *)
Inductive Handler := ChunkEnded | ChunkError | Cleanup.

(** An [HTMLAudioElement]; [el_at_start] is [currentTime === 0]. *)
Record AudioEl := mkAudio {
  el_src : nat;
  el_status : AudioStatus;
  el_at_start : bool;
  el_onended : option Handler;
  el_onerror : option Handler
}.

Inductive Event := PlayStarted (a : nat) | PlaybackEnded (a : nat) | PlaybackFailed (a : nat).

(** The state shared by every call: [currentAudio] of [audio-manager.ts], the
    audio elements created (by index), the object URLs created (by index) and
    those revoked, the [audioCache] passed by the popover, the requests sent,
    and a log of playback events. *)
Record World := mkWorld {
  currentAudio : option nat;
  audios : list AudioEl;
  objectURLs : list Blob;
  revoked : list nat;
  audioCache : AudioCache;
  fetchLog : list FetchRequest;
  events : list Event
}.

Definition with_current (c : option nat) (w : World) : World :=
  mkWorld c (audios w) (objectURLs w) (revoked w) (audioCache w) (fetchLog w) (events w).
Definition with_audios (l : list AudioEl) (w : World) : World :=
  mkWorld (currentAudio w) l (objectURLs w) (revoked w) (audioCache w) (fetchLog w) (events w).
Definition with_urls (l : list Blob) (w : World) : World :=
  mkWorld (currentAudio w) (audios w) l (revoked w) (audioCache w) (fetchLog w) (events w).
Definition with_cache (c : AudioCache) (w : World) : World :=
  mkWorld (currentAudio w) (audios w) (objectURLs w) (revoked w) c (fetchLog w) (events w).
Definition with_fetchLog (l : list FetchRequest) (w : World) : World :=
  mkWorld (currentAudio w) (audios w) (objectURLs w) (revoked w) (audioCache w) l (events w).
Definition with_events (l : list Event) (w : World) : World :=
  mkWorld (currentAudio w) (audios w) (objectURLs w) (revoked w) (audioCache w) (fetchLog w) l.

Definition initial_world : World := mkWorld None [] [] [] new_AudioCache [] [].

Fixpoint upd_nth {A} (n : nat) (f : A -> A) (l : list A) : list A :=
  match l, n with
  | [], _ => []
  | x :: t, O => f x :: t
  | x :: t, S n' => x :: upd_nth n' f t
  end.

Definition upd_audio (a : nat) (f : AudioEl -> AudioEl) (w : World) : World :=
  with_audios (upd_nth a f (audios w)) w.

Definition el_with_status (s : AudioStatus) (el : AudioEl) : AudioEl :=
  mkAudio (el_src el) s (el_at_start el) (el_onended el) (el_onerror el).

Definition audio_status (a : nat) (w : World) : option AudioStatus :=
  option_map el_status (nth_error (audios w) a).

(** [getCurrentAudio] / [setCurrentAudio] *)
Definition getCurrentAudio (w : World) : option nat := currentAudio w.
Definition setCurrentAudio (c : option nat) (w : World) : World := with_current c w.

(** [audio.pause()] *)
Definition el_pause (el : AudioEl) : AudioEl :=
  match el_status el with
  | Playing | PlayPending => el_with_status Paused el
  | _ => el
  end.

(** [audio.currentTime = 0] *)
Definition el_rewind (el : AudioEl) : AudioEl :=
  mkAudio (el_src el) (el_status el) true (el_onended el) (el_onerror el).

(** [stopCurrentAudio] *)
Definition stopCurrentAudio (w : World) : World :=
  match currentAudio w with
  | Some a => setCurrentAudio None (upd_audio a (fun el => el_rewind (el_pause el)) w)
  | None => w
  end.

(** [new Audio(url)] *)
Definition new_Audio (url : nat) (w : World) : nat * World :=
  (List.length (audios w), with_audios (audios w ++ [mkAudio url Idle true None None]) w).

(** [URL.createObjectURL(blob)] *)
Definition createObjectURL (blob : Blob) (w : World) : nat * World :=
  (List.length (objectURLs w), with_urls (objectURLs w ++ [blob]) w).

(** [audio.onended = h1; audio.onerror = h2] *)
Definition set_handlers (a : nat) (h1 h2 : option Handler) (w : World) : World :=
  upd_audio a (fun el => mkAudio (el_src el) (el_status el) (el_at_start el) h1 h2) w.

(** [audio.play()] requested. *)
Definition request_play (a : nat) (w : World) : World :=
  upd_audio a (fun el => match el_status el with
                         | Playing => el
                         | _ => el_with_status PlayPending el
                         end) w.

(** [if (getCurrentAudio() === audio) setCurrentAudio(null)] *)
Definition clear_if_current (a : nat) (w : World) : World :=
  match getCurrentAudio w with
  | Some b => if Nat.eqb a b then setCurrentAudio None w else w
  | None => w
  end.

(** The effect of a handler on the shared state. *)
Definition run_handler (h : Handler) (a : nat) (w : World) : World :=
  match h with
  | ChunkEnded | ChunkError => clear_if_current a w
  | Cleanup => clear_if_current a (set_handlers a None None w)
  end.

(** How a handler settles the promise awaited by the multi-chunk loop:
    [resolve()], [reject(new Error('Audio playback error'))], or not at all. *)
Definition settles (h : Handler) : option (option JsError) :=
  match h with
  | ChunkEnded => Some None
  | ChunkError => Some (Some (Error (u "Audio playback error")))
  | Cleanup => None
  end.

(** The element starts playing (its [play()] promise resolves). *)
Definition start_playing (a : nat) (w : World) : World :=
  with_events (events w ++ [PlayStarted a])
    (upd_audio a (fun el => mkAudio (el_src el) Playing false (el_onended el) (el_onerror el)) w).

(** Its [play()] promise rejects: the element stays paused. *)
Definition play_rejected (a : nat) (w : World) : World :=
  upd_audio a (el_with_status Idle) w.

(** The element fires [ended] ([ended = true]) or [error]: its handler, if
    any, runs; the result tells how the handler settles a promise. *)
Definition fire_terminal (ended : bool) (a : nat) (w : World) : World * option (option JsError) :=
  let w1 := with_events (events w ++ [if ended then PlaybackEnded a else PlaybackFailed a])
              (upd_audio a (el_with_status (if ended then Ended else Errored)) w) in
  let h := match nth_error (audios w1) a with
           | Some el => if ended then el_onended el else el_onerror el
           | None => None
           end in
  match h with
  | Some h => (run_handler h a w1, settles h)
  | None => (w1, None)
  end.

Definition log_fetch (r : FetchRequest) (w : World) : World :=
  with_fetchLog (fetchLog w ++ [r]) w.

(** *** Asynchronous programs

    A call is a tree of synchronous reads and writes of the world and of the
    points where it suspends: on a [fetch], on [audio.play()] (single-chunk
    path) and on the promise settled by a chunk's [onended]/[onerror] or by
    [play().catch(reject)] (multi-chunk path). *)
Inductive Proc (A : Type) : Type :=
| Ret (a : A)
| Throw (e : JsError)
| Read (k : World -> Proc A)
| Put (w : World) (k : Proc A)
| AwaitFetch (req : FetchRequest) (k : FetchOutcome -> Proc A)
| AwaitPlay (a : nat) (k : option JsError -> Proc A)
| AwaitSettle (a : nat) (k : option JsError -> Proc A).
Arguments Ret {A}.
Arguments Throw {A}.
Arguments Read {A}.
Arguments Put {A}.
Arguments AwaitFetch {A}.
Arguments AwaitPlay {A}.
Arguments AwaitSettle {A}.

Fixpoint bind {A B} (p : Proc A) (f : A -> Proc B) : Proc B :=
  match p with
  | Ret a => f a
  | Throw e => Throw e
  | Read k => Read (fun w => bind (k w) f)
  | Put w k => Put w (bind k f)
  | AwaitFetch r k => AwaitFetch r (fun o => bind (k o) f)
  | AwaitPlay a k => AwaitPlay a (fun o => bind (k o) f)
  | AwaitSettle a k => AwaitSettle a (fun o => bind (k o) f)
  end.

Local Notation "x <- p ;; q" := (bind p (fun x => q))
  (at level 61, p at next level, right associativity).

Definition modify (f : World -> World) : Proc unit := Read (fun w => Put (f w) (Ret tt)).

Definition state {A} (f : World -> A * World) : Proc A :=
  Read (fun w => Put (snd (f w)) (Ret (fst (f w)))).

Definition cache_get (key : jstr) : Proc (option CachedAudio) :=
  state (fun w => (fst (AudioCache_get key (audioCache w)),
                   with_cache (snd (AudioCache_get key (audioCache w))) w)).

Definition cache_set (key : jstr) (v : CachedAudio) : Proc unit :=
  modify (fun w => with_cache (AudioCache_set key v (audioCache w)) w).

(** [audioCache.clear()] on the popover's cache. *)
Definition cache_clear : Proc unit :=
  modify (fun w => with_cache (AudioCache_clear (audioCache w)) w).

(** [fetchAudioFromAPI] *)
Definition fetchAudioFromAPI (text apiKey baseURL : jstr) (model : TTSModel) (voice : jstr)
  (speed : Number) : Proc Blob :=
  AwaitFetch (speech_request text apiKey baseURL model voice speed) (fun o =>
    match o with
    | FetchRejected e => Throw e
    | Responded r => if response_ok r then Ret (body_blob r) else Throw (http_error r)
    end).

(** The cache lookup of [playTextWithTTS], and the render on a miss:
    the object URL of the audio to play. *)
Definition resolve_audio (cacheKey text apiKey baseURL : jstr) (model : TTSModel)
  (voice : jstr) (speed : Number) : Proc nat :=
  cached <- cache_get cacheKey ;;
  match cached with
  | Some c => Ret (ca_url c)
  | None =>
      audioBlob <- fetchAudioFromAPI text apiKey baseURL model voice speed ;;
      audioUrl <- state (createObjectURL audioBlob) ;;
      _ <- cache_set cacheKey (mkCached audioUrl audioBlob) ;;
      Ret audioUrl
  end.

(** [await new Promise((resolve, reject) => { ... })] of the multi-chunk loop. *)
Definition play_chunk_and_wait (audioUrl : nat) : Proc unit :=
  audio <- state (new_Audio audioUrl) ;;
  _ <- modify (setCurrentAudio (Some audio)) ;;
  _ <- modify (set_handlers audio (Some ChunkEnded) (Some ChunkError)) ;;
  _ <- modify (request_play audio) ;;
  AwaitSettle audio (fun r => match r with None => Ret tt | Some e => Throw e end).

(** The [for] loop over [textChunks]. *)
Fixpoint play_chunks (textChunks : list jstr) (apiKey baseURL : jstr) (model : TTSModel)
  (voice : jstr) (speed : Number) : Proc unit :=
  match textChunks with
  | [] => Ret tt
  | chunk :: rest =>
      audioUrl <- resolve_audio (cacheKey chunk model voice speed) chunk apiKey baseURL
                    model voice speed ;;
      _ <- play_chunk_and_wait audioUrl ;;
      play_chunks rest apiKey baseURL model voice speed
  end.

(** The single-chunk branch. *)
Definition play_single (text apiKey baseURL : jstr) (model : TTSModel) (voice : jstr)
  (speed : Number) : Proc unit :=
  audioUrl <- resolve_audio (cacheKey text model voice speed) text apiKey baseURL
                model voice speed ;;
  audio <- state (new_Audio audioUrl) ;;
  _ <- modify (setCurrentAudio (Some audio)) ;;
  _ <- modify (set_handlers audio (Some Cleanup) (Some Cleanup)) ;;
  _ <- modify (request_play audio) ;;
  AwaitPlay audio (fun r => match r with None => Ret tt | Some e => Throw e end).

(** [playTextWithTTS] *)
Definition playTextWithTTS (text apiKey baseURL : jstr) (model : TTSModel) (voice : jstr)
  (speed : Number) : Proc unit :=
  _ <- modify stopCurrentAudio ;;
  let textChunks := splitTextForTTS text MAX_TTS_CHARACTERS in
  if (1 <? List.length textChunks)%nat
  then play_chunks textChunks apiKey baseURL model voice speed
  else play_single text apiKey baseURL model voice speed.

(** *** One call in isolation

    The environment answers the [n]-th request, and tells how each audio
    element's playback goes. *)
Inductive Playback := PlayRejects (e : JsError) | PlaysToEnd | PlaysThenErrors.

Record Env := mkEnv {
  env_fetch : nat -> FetchRequest -> FetchOutcome;
  env_playback : nat -> Playback
}.

Inductive Outcome (A : Type) := Resolved (a : A) | Rejected (e : JsError) | Pending.
Arguments Resolved {A}.
Arguments Rejected {A}.
Arguments Pending {A}.

(** The settled promise of a call, with the world when it settles.  A
    single-chunk call settles when [play()] does; the [ended]/[error] event of
    its audio fires later ([fire_terminal]). *)
Fixpoint run {A} (env : Env) (p : Proc A) (w : World) : Outcome A * World :=
  match p with
  | Ret a => (Resolved a, w)
  | Throw e => (Rejected e, w)
  | Read k => run env (k w) w
  | Put w' k => run env k w'
  | AwaitFetch r k => run env (k (env_fetch env (List.length (fetchLog w)) r)) (log_fetch r w)
  | AwaitPlay a k =>
      match env_playback env a with
      | PlayRejects e => run env (k (Some e)) (play_rejected a w)
      | _ => run env (k None) (start_playing a w)
      end
  | AwaitSettle a k =>
      match env_playback env a with
      | PlayRejects e => run env (k (Some e)) (play_rejected a w)
      | pb =>
          let ended := match pb with PlaysToEnd => true | _ => false end in
          let (w', s) := fire_terminal ended a (start_playing a w) in
          match s with
          | Some r => run env (k r) w'
          | None => (Pending, w')
          end
      end
  end.

(** *** Overlapping calls

    JavaScript runs each synchronous segment to completion; between segments
    the environment settles a pending request or drives an audio element. *)
Fixpoint sync {A} (p : Proc A) (w : World) : Proc A * World :=
  match p with
  | Read k => sync (k w) w
  | Put w' k => sync k w'
  | _ => (p, w)
  end.

Inductive Choice :=
| Call (p : Proc unit)                     (** a new call starts *)
| FetchSettles (i : nat) (o : FetchOutcome) (** the request of call [i] settles *)
| AudioStarts (a : nat)
| AudioEnds (a : nat)
| AudioFails (a : nat).

Record Config := mkConfig { cfg_world : World; cfg_calls : list (Proc unit) }.

(** Resume, in order, every call that [f] wakes up. *)
Fixpoint resume_all (f : Proc unit -> option (Proc unit)) (ts : list (Proc unit)) (w : World)
  : list (Proc unit) * World :=
  match ts with
  | [] => ([], w)
  | t :: r =>
      let (t', w1) := match f t with Some p => sync p w | None => (t, w) end in
      let (r', w2) := resume_all f r w1 in
      (t' :: r', w2)
  end.

Definition step (c : Config) (ch : Choice) : Config :=
  let w := cfg_world c in
  let ts := cfg_calls c in
  match ch with
  | Call p => let (p', w') := sync p w in mkConfig w' (ts ++ [p'])
  | FetchSettles i o =>
      match nth_error ts i with
      | Some (AwaitFetch r k) =>
          let (p', w') := sync (k o) (log_fetch r w) in
          mkConfig w' (upd_nth i (fun _ => p') ts)
      | _ => c
      end
  | AudioStarts a =>
      match audio_status a w with
      | Some PlayPending =>
          let (ts', w') := resume_all (fun t => match t with
                                                | AwaitPlay b k => if Nat.eqb a b then Some (k None) else None
                                                | _ => None
                                                end) ts (start_playing a w) in
          mkConfig w' ts'
      | _ => c
      end
  | AudioEnds a | AudioFails a =>
      let ended := match ch with AudioEnds _ => true | _ => false end in
      match audio_status a w with
      | Some Playing =>
          let (w1, s) := fire_terminal ended a w in
          match s with
          | Some r =>
              let (ts', w') := resume_all (fun t => match t with
                                                    | AwaitSettle b k => if Nat.eqb a b then Some (k r) else None
                                                    | _ => None
                                                    end) ts w1 in
              mkConfig w' ts'
          | None => mkConfig w1 ts
          end
      | _ => c
      end
  end.

Definition run_choices (c : Config) (chs : list Choice) : Config := fold_left step chs c.

(** The elements playing. *)
Definition playing (w : World) : list nat :=
  filter (fun a => match audio_status a w with Some Playing => true | _ => false end)
         (seq 0 (List.length (audios w))).

(** *** Invariants of whole runs *)

Definition preserves {A} (P : World -> Prop) (p : Proc A) : Prop :=
  forall env w, P w -> P (snd (run env p w)).

(** A property of the world kept by the playback primitives of a call. *)
Record Frame (P : World -> Prop) : Prop := {
  frame_stop : forall w, P w -> P (stopCurrentAudio w);
  frame_audio : forall url w, P w -> P (snd (new_Audio url w));
  frame_current : forall c w, P w -> P (setCurrentAudio c w);
  frame_handlers : forall a h1 h2 w, P w -> P (set_handlers a h1 h2 w);
  frame_play : forall a w, P w -> P (request_play a w);
  frame_start : forall a w, P w -> P (start_playing a w);
  frame_reject : forall a w, P w -> P (play_rejected a w);
  frame_terminal : forall e a w, P w -> P (fst (fire_terminal e a w))
}.

(** A property of the world kept by the cache and render primitives. *)
Record CacheFrame (P : World -> Prop) : Prop := {
  cframe_cache : forall c w, P w -> P (with_cache c w);
  cframe_log : forall r w, P w -> P (log_fetch r w);
  cframe_url : forall b w, P w -> P (snd (createObjectURL b w))
}.

(** A render that fails: the request rejects or the response is not ok. *)
Definition fetch_fails (o : FetchOutcome) : Prop :=
  match o with
  | FetchRejected _ => True
  | Responded r => response_ok r = false
  end.

(** A render that succeeds: every request gets an ok response. *)
Definition fetch_ok (env : Env) : Prop :=
  forall n q, exists r, env_fetch env n q = Responded r /\ response_ok r = true.

End Model.

Arguments Ret {Number A} a.
Arguments Throw {Number A} e.
Arguments Read {Number A} k.
Arguments Put {Number A} w k.
Arguments AwaitFetch {Number A} req k.
Arguments AwaitPlay {Number A} a k.
Arguments AwaitSettle {Number A} a k.
Arguments Resolved {A} a.
Arguments Rejected {A} e.
Arguments Pending {A}.
Arguments FetchRejected {Number} e.
Arguments Responded {Number} r.
Arguments JNull {Number}.
Arguments lru_capacity {V}.
Arguments lru_entries {V}.
Arguments mkLRU {V}.

End Tts.

(** ** Concrete instances used by the runs below *)
Module Concrete.
Import JStr Chunker Tts.

(** Integral JS numbers, enough for the concrete runs (e.g. [speed = 1]). *)
#[export] Instance JSNumber_Z : JSNumber Z := {|
  Number_toString := Z_to_dec;
  Number_toJSON := Z_to_dec;
  Number_truthy := fun z => negb (Z.eqb z 0)
|}.

(** The popover's call with a test key and the default voice settings. *)
Definition speak (text : jstr) : Proc unit :=
  playTextWithTTS text (u "sk-test") (u "https://api.openai.com/v1") tts_1 (u "alloy") 1%Z.

Definition ok_response : @FetchOutcome Z := Responded (mkResponse 200 None [Byte.x01]).

(** Every request succeeds; every audio plays to its end. *)
Definition env_ok : @Env Z := mkEnv (fun _ _ => ok_response) (fun _ => PlaysToEnd).

(** Every request is answered with status [st] and body [body]. *)
Definition env_status (st : Z) (body : option (@json Z)) : @Env Z :=
  mkEnv (fun _ _ => Responded (mkResponse st body [])) (fun _ => PlaysToEnd).

(** The first [n] requests succeed, the others are answered with status 500. *)
Definition env_fail_from (n : nat) : @Env Z :=
  mkEnv (fun i _ => if (i <? n)%nat then ok_response else Responded (mkResponse 500 None []))
        (fun _ => PlaysToEnd).

(** The body [{"error":{"message":m}}]. *)
Definition error_body (m : jstr) : option (@json Z) :=
  Some (JObj [(u "error", JObj [(u "message", JStr m)])]).

Definition hello : jstr := u "Hello world".

(** A text of two chunks: 4000 letters, a full stop, 100 letters. *)
Definition long_text : jstr := repeat 97%N 4000 ++ u ". " ++ repeat 98%N 100.

(** A full cache of ten entries, most recently used first, whose object URLs
    are [0 .. 9]. *)
Definition cache_key (i : nat) : jstr := u "k" ++ [N.of_nat (48 + i)].

Definition full_cache : AudioCache :=
  mkLRU 10 (map (fun i => (cache_key i, mkCached i [Byte.x01])) (rev (seq 0 10))).

Definition full_world : World :=
  mkWorld None [] (repeat [Byte.x01] 10) [] full_cache [] [].

(** Every request succeeds; every [play()] is refused (autoplay policy). *)
Definition env_refuse : @Env Z :=
  mkEnv (fun _ _ => ok_response) (fun _ => PlayRejects (DOMException (u "NotAllowedError"))).

(** Every request succeeds; every audio starts, then fails. *)
Definition env_errors : @Env Z := mkEnv (fun _ _ => ok_response) (fun _ => PlaysThenErrors).

End Concrete.

(** ** Readers used to state properties *)
Module Reading.
Import JStr.

(** [l] is a subsequence of [m]. *)
Inductive subseq {A : Type} : list A -> list A -> Prop :=
| subseq_nil : subseq [] []
| subseq_skip x l m : subseq l m -> subseq l (x :: m)
| subseq_take x l m : subseq l m -> subseq (x :: l) (x :: m).

(** The value of a lower-case hexadecimal digit. *)
Definition hex_val (d : N) : N :=
  if ((48 <=? d) && (d <=? 57))%N then (d - 48)%N else (d - 87)%N.

Definition hex4 (a b c d : N) : N :=
  (hex_val a * 4096 + hex_val b * 256 + hex_val c * 16 + hex_val d)%N.

Definition unescape (x : N) : N :=
  match x with
  | 98 => 8 | 102 => 12 | 110 => 10 | 114 => 13 | 116 => 9
  | _ => x
  end%N.

Definition cons_fst (c : N) (o : option (jstr * jstr)) : option (jstr * jstr) :=
  match o with Some (s, r) => Some (c :: s, r) | None => None end.

(** Reading a JSON string literal back, from just after its opening quote:
    the code units it denotes and what follows its closing quote. *)
Fixpoint read_json_string (l : jstr) : option (jstr * jstr) :=
  match l with
  | [] => None
  | c :: r =>
      if (c =? 34)%N then Some ([], r)
      else if (c =? 92)%N then
        match r with
        | x :: r' =>
            if (x =? 117)%N then
              match r' with
              | a :: b :: c' :: d :: r'' => cons_fst (hex4 a b c' d) (read_json_string r'')
              | _ => None
              end
            else cons_fst (unescape x) (read_json_string r')
        | [] => None
        end
      else cons_fst c (read_json_string r)
  end.

End Reading.

(** ** Shapes used by the proofs below *)
Module Shapes.
Import JStr Chunker Tts Reading.

(** [check_from f c t]: [t] holds on [c, c + 1, ..., c + f - 1]. *)
Fixpoint check_from (f : nat) (c : N) (t : N -> bool) : bool :=
  match f with
  | O => true
  | S f' => t c && check_from f' (c + 1)%N t
  end.

(** The [\\uXXXX] escape of [c], read back by [hex4]. *)
Definition hex4_test (c : N) : bool :=
  N.eqb (hex4 (hex_digit (N.modulo (c / 4096) 16)) (hex_digit (N.modulo (c / 256) 16))
              (hex_digit (N.modulo (c / 16) 16)) (hex_digit (N.modulo c 16))) c.

(** Every chunk pushed so far is the [trim()] of some text. *)
Definition trimmed_chunks (st : ChunkState) : Prop :=
  Forall (fun c => exists x, c = trim x) (chunks st).

Section Setup.
Context {Number : Type} `{JSNumber Number}.
(** The world once a call has created its element [a], made it current, set
    its handlers and asked it to play. *)
Definition set_up (url : nat) (h1 h2 : option Handler) (w : World) : World :=
  let a := List.length (audios w) in
  request_play a (set_handlers a h1 h2 (setCurrentAudio (Some a) (snd (new_Audio url w)))).
End Setup.
End Shapes.

(** ** Facts about the chunker *)
Module ChunkerFacts.
Import JStr Chunker.
Local Open Scope Z_scope.

(** *** Regular-expression split *)

Lemma split_go_concat m fuel piece s :
  List.concat (split_go m fuel piece s) = piece ++ s.
Proof.
  revert piece s; induction fuel as [|f IH]; intros piece s; cbn [split_go].
  - cbn. now rewrite app_nil_r.
  - destruct s as [|c t]; [cbn; now rewrite !app_nil_r|].
    destruct (m (c :: t)) as [|k] eqn:E.
    + rewrite IH, <- app_assoc. reflexivity.
    + cbn [List.concat]. rewrite IH, app_nil_l, firstn_skipn. reflexivity.
Qed.

Lemma regex_split_concat m s : List.concat (regex_split m s) = s.
Proof. unfold regex_split. now rewrite split_go_concat. Qed.

Lemma infix_refl x : infix x x.
Proof. exists [], []. now rewrite app_nil_r. Qed.








(** *** Trimming *)







Lemma non_ws_app a b : non_ws (a ++ b) = non_ws a ++ non_ws b.
Proof. apply filter_app. Qed.

Lemma non_ws_rev s : non_ws (rev s) = rev (non_ws s).
Proof.
  induction s as [|c t IH]; [reflexivity|]. cbn [rev].
  rewrite non_ws_app, IH. cbn. destruct (is_ws c); cbn; [now rewrite app_nil_r|reflexivity].
Qed.

Lemma non_ws_drop_ws s : non_ws (drop_ws s) = non_ws s.
Proof.
  induction s as [|c t IH]; [reflexivity|]. cbn.
  destruct (is_ws c) eqn:E; [exact IH|]. cbn. now rewrite E.
Qed.

Lemma non_ws_trim s : non_ws (trim s) = non_ws s.
Proof.
  unfold trim. rewrite non_ws_rev, non_ws_drop_ws, non_ws_rev, non_ws_drop_ws.
  apply rev_involutive.
Qed.

Lemma non_ws_join_sp l : non_ws (join_sp l) = List.concat (map non_ws l).
Proof.
  induction l as [|x l IH]; [reflexivity|].
  destruct l as [|y l]; [cbn; now rewrite !app_nil_r|].
  change (join_sp (x :: y :: l)) with (x ++ [32%N] ++ join_sp (y :: l)).
  rewrite !non_ws_app, IH. reflexivity.
Qed.



(** *** Length bound (C5) *)









(** *** Content preservation (C6) *)

(** The non-whitespace content of the chunks pushed so far and of the running chunk. *)
Definition content (st : ChunkState) : jstr :=
  List.concat (map non_ws (chunks st)) ++ non_ws (currentChunk st).

Lemma content_push st : List.concat (map non_ws (push_current st)) = content st.
Proof.
  unfold push_current, content. rewrite map_app, concat_app. cbn [map List.concat].
  now rewrite non_ws_trim, app_nil_r.
Qed.

Lemma content_empty_current st :
  truthy (currentChunk st) = false -> content st = List.concat (map non_ws (chunks st)).
Proof.
  unfold content. destruct (currentChunk st); [|discriminate]. intros _.
  apply app_nil_r.
Qed.

Lemma word_step_content maxChars st w :
  content (word_step maxChars st w) = content st ++ non_ws w.
Proof.
  unfold word_step. destruct (_ >? _).
  - destruct (truthy (currentChunk st)) eqn:Ec.
    + unfold content at 1. cbn [chunks currentChunk]. now rewrite content_push.
    + unfold content at 1. cbn [chunks currentChunk]. now rewrite content_empty_current.
  - unfold content. cbn [chunks currentChunk]. now rewrite non_ws_app, app_assoc.
Qed.

Lemma fold_word_step_content maxChars words st :
  content (fold_left (word_step maxChars) words st) =
  content st ++ non_ws (List.concat words).
Proof.
  revert st; induction words as [|w words IH]; intros st; cbn [fold_left].
  - cbn. now rewrite app_nil_r.
  - rewrite IH, word_step_content. cbn [List.concat].
    now rewrite non_ws_app, app_assoc.
Qed.

Lemma sentence_step_content maxChars st s :
  content (sentence_step maxChars st s) = content st ++ non_ws s.
Proof.
  unfold sentence_step.
  destruct s as [|c t] eqn:Es; cbn [truthy negb].
  { cbn. now rewrite app_nil_r. }
  rewrite <- Es. clear c t Es.
  destruct (len s >? maxChars).
  - rewrite fold_word_step_content, regex_split_concat. f_equal.
    destruct (truthy (currentChunk st)) eqn:Ec; [|reflexivity].
    unfold content at 1. cbn [chunks currentChunk]. now rewrite content_push, app_nil_r.
  - destruct (_ >? _).
    + unfold content at 1. cbn [chunks currentChunk]. now rewrite content_push.
    + unfold content. cbn [chunks currentChunk]. now rewrite non_ws_app, app_assoc.
Qed.

Lemma fold_sentence_step_content maxChars sentences st :
  content (fold_left (sentence_step maxChars) sentences st) =
  content st ++ non_ws (List.concat sentences).
Proof.
  revert st; induction sentences as [|s ss IH]; intros st; cbn [fold_left].
  - cbn. now rewrite app_nil_r.
  - rewrite IH, sentence_step_content. cbn [List.concat].
    now rewrite non_ws_app, app_assoc.
Qed.

Lemma filter_nonempty_content l :
  List.concat (map non_ws (filter (fun chunk => len chunk >? 0) l)) =
  List.concat (map non_ws l).
Proof.
  induction l as [|c l IH]; [reflexivity|]. cbn [filter].
  destruct (len c >? 0) eqn:E; cbn [map List.concat]; rewrite IH; [reflexivity|].
  destruct c; [reflexivity|]. unfold len in E. cbn in E. lia.
Qed.


(** *** Where a token lands in a regular-expression split *)

Section SplitShape.
Variable m : jstr -> nat.
(** [start c]: a match can begin at [c]; [sepc c]: [c] can occur in a match. *)
Variables start sepc : N -> bool.
Hypothesis m_none : forall c t, start c = false -> m (c :: t) = O.
Hypothesis m_some : forall c t, start c = true -> m (c :: t) <> O.
Hypothesis m_sep : forall s, Forall (fun c => sepc c = true) (firstn (m s) s).






End SplitShape.






(** *** A token longer than [maxChars] survives the loops *)


Section Token.
Variable maxChars : Z.
Variable w : jstr.
Hypothesis w_long : maxChars < len w.
Hypothesis w_trim : trim w = w.
Hypothesis w_ne : w <> [].












End Token.




(** *** Claims about [splitTextForTTS] *)




(** C6: trimming every chunk and joining them with single spaces keeps every
    non-whitespace code unit of the input, in order. *)
Theorem splitTextForTTS_preserves_non_ws (text : jstr) (maxChars : Z) :
  non_ws (join_sp (map trim (splitTextForTTS text maxChars))) = non_ws text.
Proof.
  rewrite non_ws_join_sp, map_map.
  rewrite (map_ext _ _ non_ws_trim).
  unfold splitTextForTTS.
  destruct (len text <=? maxChars).
  - cbn. apply app_nil_r.
  - rewrite filter_nonempty_content.
    set (st := fold_left (sentence_step maxChars)
                 (regex_split match_sentence_sep text) (mkCS [] [])).
    transitivity (content st).
    + destruct (truthy (currentChunk st)) eqn:Ec.
      * apply content_push.
      * symmetry. now apply content_empty_current.
    + unfold st. rewrite fold_sentence_step_content, regex_split_concat. reflexivity.
Qed.

(** C9 (counterexample): on the empty text, with the default limit,
    [splitTextForTTS] returns one (empty) chunk, not an empty list. *)
Lemma splitTextForTTS_empty_cex :
  splitTextForTTS (u "") MAX_TTS_CHARACTERS = [u ""] /\
  List.length (splitTextForTTS (u "") MAX_TTS_CHARACTERS) = 1%nat.
Proof. split; reflexivity. Qed.

(** C9 (as amended): for the empty text and any non-negative [maxChars], the
    early return for texts within the limit yields the single chunk [""]; the
    empty-chunk filter is not reached. *)
Theorem splitTextForTTS_empty (maxChars : Z) :
  0 <= maxChars -> splitTextForTTS [] maxChars = [[]].
Proof.
  intros H. unfold splitTextForTTS.
  replace (len [] <=? maxChars) with true; [reflexivity|].
  symmetry. apply Z.leb_le. exact H.
Qed.

Lemma splitTextForTTS_empty_witness :
  0 <= MAX_TTS_CHARACTERS /\ splitTextForTTS [] MAX_TTS_CHARACTERS = [[]].
Proof.
  split; [unfold MAX_TTS_CHARACTERS; lia|].
  apply splitTextForTTS_empty. unfold MAX_TTS_CHARACTERS; lia.
Defined.

End ChunkerFacts.

(** ** Facts about the playback pipeline *)
Module TtsFacts.
Import JStr Chunker Tts Concrete.
Local Open Scope Z_scope.

Section Generic.
Context {Number : Type} `{JSNumber Number}.

Lemma run_bind {A B} (env : @Env Number) (p : @Proc Number A) (f : A -> Proc B) w :
  run env (bind p f) w =
  match run env p w with
  | (Resolved a, w') => run env (f a) w'
  | (Rejected e, w') => (Rejected e, w')
  | (Pending, w') => (Pending, w')
  end.
Proof.
  revert w; induction p as [a|e|k IH|w0 k IH|r k IH|a k IH|a k IH]; intros w; cbn;
    try reflexivity; auto.
  - destruct (env_playback env a); auto.
  - destruct (env_playback env a); auto;
      destruct (fire_terminal _ _ _) as [w' [r|]]; auto.
Qed.

Ltac simpl_world :=
  cbn [with_current with_audios with_urls with_cache with_fetchLog with_events log_fetch
       createObjectURL new_Audio currentAudio audios objectURLs revoked audioCache
       fetchLog events lru_capacity lru_entries fst snd] in *.

Ltac split_matches :=
  repeat match goal with
         | |- context [match ?x with _ => _ end] => destruct x eqn:?
         end.

Lemma run_handler_frame h a w :
  audioCache (run_handler h a w) = audioCache w /\
  revoked (run_handler h a w) = revoked w /\
  objectURLs (run_handler h a w) = objectURLs w.
Proof.
  destruct h; cbn; unfold clear_if_current, getCurrentAudio; split_matches; auto.
Qed.

Lemma fire_terminal_frame ended a w :
  audioCache (fst (fire_terminal ended a w)) = audioCache w /\
  revoked (fst (fire_terminal ended a w)) = revoked w /\
  objectURLs (fst (fire_terminal ended a w)) = objectURLs w.
Proof.
  unfold fire_terminal.
  destruct ended; cbn -[run_handler upd_audio];
    destruct (nth_error _ a) as [el|]; cbn -[run_handler upd_audio]; auto;
    [destruct (el_onended el) as [h|] | destruct (el_onerror el) as [h|]];
    cbn -[run_handler upd_audio]; auto;
    match goal with
    | |- context [run_handler ?h ?a ?w] =>
        destruct (run_handler_frame h a w) as [E1 [E2 E3]]; rewrite E1, E2, E3
    end; auto.
Qed.


Section Frames.
Variable P : World -> Prop.

Lemma preserves_bind {A B} (p : @Proc Number A) (f : A -> @Proc Number B) :
  preserves P p -> (forall a, preserves (Number:=Number) P (f a)) ->
  preserves (Number:=Number) P (bind p f).
Proof.
  intros Hp Hf env w Hw. rewrite run_bind.
  specialize (Hp env w Hw).
  destruct (run env p w) as [[a|e|] w']; cbn in *; auto. now apply Hf.
Qed.

Lemma preserves_ret {A} (a : A) : preserves (Number:=Number) P (Ret a).
Proof. intros env w Hw. exact Hw. Qed.

Lemma preserves_throw {A} e : preserves (Number:=Number) P (@Throw Number A e).
Proof. intros env w Hw. exact Hw. Qed.

Lemma preserves_modify f :
  (forall w, P w -> P (f w)) -> preserves (Number:=Number) P (modify f).
Proof. intros Hf env w Hw. cbn. auto. Qed.

Lemma preserves_state {A} (f : World -> A * World) :
  (forall w, P w -> P (snd (f w))) -> preserves (Number:=Number) P (state f).
Proof. intros Hf env w Hw. cbn. auto. Qed.

Section Playback.
Hypothesis HP : Frame P.

Lemma preserves_settle a (k : option JsError -> @Proc Number unit) :
  (forall o, preserves P (k o)) -> preserves (Number:=Number) P (AwaitSettle a k).
Proof.
  intros Hk env w Hw. cbn.
  destruct (env_playback env a).
  - apply Hk. now apply (frame_reject _ HP).
  - pose proof (frame_terminal _ HP true a (start_playing a w)
                  (frame_start _ HP a w Hw)) as Ht.
    destruct (fire_terminal _ _ _) as [w' [r|]]; cbn in *; [apply Hk|]; assumption.
  - pose proof (frame_terminal _ HP false a (start_playing a w)
                  (frame_start _ HP a w Hw)) as Ht.
    destruct (fire_terminal _ _ _) as [w' [r|]]; cbn in *; [apply Hk|]; assumption.
Qed.

Lemma preserves_play a (k : option JsError -> @Proc Number unit) :
  (forall o, preserves P (k o)) -> preserves (Number:=Number) P (AwaitPlay a k).
Proof.
  intros Hk env w Hw. cbn.
  destruct (env_playback env a); apply Hk;
    [now apply (frame_reject _ HP)|now apply (frame_start _ HP)..].
Qed.

Lemma preserves_play_chunk_and_wait url :
  preserves (Number:=Number) P (play_chunk_and_wait url).
Proof.
  unfold play_chunk_and_wait.
  apply preserves_bind; [apply preserves_state, (frame_audio _ HP)|intros a].
  apply preserves_bind; [apply preserves_modify, (frame_current _ HP)|intros _].
  apply preserves_bind; [apply preserves_modify, (frame_handlers _ HP)|intros _].
  apply preserves_bind; [apply preserves_modify, (frame_play _ HP)|intros _].
  apply preserves_settle. intros [e|]; [apply preserves_throw|apply preserves_ret].
Qed.

(** What [play_single] does once the URL is known. *)
Lemma preserves_play_url (audioUrl : nat) :
  preserves (Number:=Number) P
    (bind (state (new_Audio audioUrl)) (fun audio =>
     bind (modify (setCurrentAudio (Some audio))) (fun _ =>
     bind (modify (set_handlers audio (Some Cleanup) (Some Cleanup))) (fun _ =>
     bind (modify (request_play audio)) (fun _ =>
     AwaitPlay audio (fun r => match r with None => Ret tt | Some e => Throw e end)))))).
Proof.
  apply preserves_bind; [apply preserves_state, (frame_audio _ HP)|intros a].
  apply preserves_bind; [apply preserves_modify, (frame_current _ HP)|intros _].
  apply preserves_bind; [apply preserves_modify, (frame_handlers _ HP)|intros _].
  apply preserves_bind; [apply preserves_modify, (frame_play _ HP)|intros _].
  apply preserves_play. intros [e|]; [apply preserves_throw|apply preserves_ret].
Qed.

End Playback.

Section Cache.
Hypothesis HC : CacheFrame P.

Lemma preserves_resolve_audio key text apiKey baseURL model voice speed :
  preserves P (resolve_audio key text apiKey baseURL model voice speed).
Proof.
  unfold resolve_audio. apply preserves_bind.
  { apply preserves_state. intros w Hw. now apply (cframe_cache _ HC). }
  intros [c|]; [apply preserves_ret|].
  apply preserves_bind.
  { intros env w Hw. cbn.
    destruct (env_fetch _ _ _) as [e|r]; [|destruct (response_ok r)];
      cbn; now apply (cframe_log _ HC). }
  intros blob. apply preserves_bind.
  { apply preserves_state. apply (cframe_url _ HC). }
  intros url. apply preserves_bind; [|intros; apply preserves_ret].
  apply preserves_modify. intros w Hw. now apply (cframe_cache _ HC).
Qed.

Hypothesis HP : Frame P.

Lemma preserves_play_chunks chunks apiKey baseURL model voice speed :
  preserves P (play_chunks chunks apiKey baseURL model voice speed).
Proof.
  induction chunks as [|c rest IH]; cbn [play_chunks]; [apply preserves_ret|].
  apply preserves_bind; [apply preserves_resolve_audio|intros url].
  apply preserves_bind; [apply preserves_play_chunk_and_wait, HP|intros _; exact IH].
Qed.

Lemma preserves_playTextWithTTS text apiKey baseURL model voice speed :
  preserves P (playTextWithTTS text apiKey baseURL model voice speed).
Proof.
  unfold playTextWithTTS.
  apply preserves_bind; [apply preserves_modify, (frame_stop _ HP)|intros _].
  destruct (1 <? _)%nat; [apply preserves_play_chunks|].
  unfold play_single.
  apply preserves_bind; [apply preserves_resolve_audio|intros url].
  apply preserves_play_url, HP.
Qed.

End Cache.
End Frames.

Lemma revoked_frame r0 : Frame (fun w => revoked w = r0).
Proof.
  split; intros; try assumption;
    try (unfold stopCurrentAudio; destruct (currentAudio w); assumption);
    try (cbn; assumption).
  rewrite (proj1 (proj2 (fire_terminal_frame e a w))). assumption.
Qed.

Lemma revoked_cframe r0 : CacheFrame (fun w => revoked w = r0).
Proof. split; intros; assumption. Qed.

Lemma with_cache_same (w : World) : with_cache (audioCache w) w = w.
Proof. destruct w; reflexivity. Qed.

Lemma stopCurrentAudio_cache w :
  audioCache (stopCurrentAudio w) = audioCache w /\
  fetchLog (stopCurrentAudio w) = fetchLog w /\
  objectURLs (stopCurrentAudio w) = objectURLs w.
Proof. unfold stopCurrentAudio. destruct (currentAudio w); auto. Qed.

(** A failing render, whatever follows it. *)
Lemma fetchAudioFromAPI_fails {B} (env : @Env Number) text apiKey baseURL model voice speed
  (k : Blob -> @Proc Number B) w :
  fetch_fails (env_fetch env (List.length (fetchLog w))
                 (speech_request text apiKey baseURL model voice speed)) ->
  exists e, run env (bind (fetchAudioFromAPI text apiKey baseURL model voice speed) k) w
            = (Rejected e, log_fetch (speech_request text apiKey baseURL model voice speed) w).
Proof.
  intros Hfail. cbn.
  destruct (env_fetch _ _ _) as [e|r]; cbn in Hfail |- *.
  - exists e; reflexivity.
  - rewrite Hfail. exists (http_error r). reflexivity.
Qed.

(** A cache miss whose render fails: nothing after the render runs. *)
Lemma resolve_audio_fetch_fails {B} (env : @Env Number) key text apiKey baseURL model voice
  speed (k : nat -> @Proc Number B) w :
  assoc key (lru_entries (audioCache w)) = None ->
  fetch_fails (env_fetch env (List.length (fetchLog w))
                 (speech_request text apiKey baseURL model voice speed)) ->
  exists e, run env (bind (resolve_audio key text apiKey baseURL model voice speed) k) w
            = (Rejected e, log_fetch (speech_request text apiKey baseURL model voice speed) w).
Proof.
  intros Hmiss Hfail.
  unfold resolve_audio, cache_get, state. cbn [bind run fst snd].
  unfold AudioCache_get, lru_get. rewrite Hmiss. cbn [fst snd].
  rewrite with_cache_same, run_bind.
  match goal with
  | |- context [run env (bind (fetchAudioFromAPI ?a ?b ?c ?d ?e ?f) ?g) w] =>
      destruct (fetchAudioFromAPI_fails env a b c d e f g w Hfail) as [err He]; rewrite He
  end.
  exists err. reflexivity.
Qed.

(** C4: a terminal event ([ended] or [error]) of a playback leaves the audio
    cache as it was and revokes no object URL; and no run of
    [playTextWithTTS], whatever its renders and playbacks do, revokes an
    object URL: URLs stay valid for later requests of the same text. *)
Theorem playback_end_keeps_cache :
  (forall ended a (w : World),
      audioCache (fst (fire_terminal ended a w)) = audioCache w /\
      revoked (fst (fire_terminal ended a w)) = revoked w) /\
  (forall (env : @Env Number) text apiKey baseURL model voice speed w,
      revoked (snd (run env (playTextWithTTS text apiKey baseURL model voice speed) w))
      = revoked w).
Proof.
  split.
  - intros ended a w. destruct (fire_terminal_frame ended a w) as [E1 [E2 _]]. auto.
  - intros env text apiKey baseURL model voice speed w.
    apply (preserves_playTextWithTTS _ (revoked_cframe (revoked w)) (revoked_frame (revoked w))).
    reflexivity.
Qed.

(** Running the chunks of [pre ++ l] is running those of [pre], then those
    of [l] if [pre] resolved. *)
Lemma run_play_chunks_app (env : @Env Number) pre l apiKey baseURL model voice speed w :
  run env (play_chunks (pre ++ l) apiKey baseURL model voice speed) w =
  match run env (play_chunks pre apiKey baseURL model voice speed) w with
  | (Resolved _, w') => run env (play_chunks l apiKey baseURL model voice speed) w'
  | (Rejected e, w') => (Rejected e, w')
  | (Pending, w') => (Pending, w')
  end.
Proof.
  revert w. induction pre as [|c pre IH]; intros w; [reflexivity|].
  cbn [app play_chunks]. rewrite !run_bind.
  destruct (run env (resolve_audio _ _ _ _ _ _ _) w) as [[url|e|] w1]; [|reflexivity..].
  rewrite !run_bind.
  destruct (run env (play_chunk_and_wait url) w1) as [[[]|e|] w2]; [|reflexivity..].
  apply IH.
Qed.

(** C10: take any chunk [c] that the call looks up (the chunks of a text
    of several chunks, or the text itself), with [wp] the world once the
    chunks before it have played. If [c]'s key is not in the cache of [wp]
    and its render fails (the request rejects or the status is not ok),
    then [playTextWithTTS] rejects right after that render. The world it
    leaves is [wp] with the request logged: no cache entry, no object URL
    and no audio element was added for [c]. *)
Theorem playTextWithTTS_render_failure (env : @Env Number) text apiKey baseURL model voice
  speed w pre c post wp :
  (if (1 <? List.length (splitTextForTTS text MAX_TTS_CHARACTERS))%nat
   then splitTextForTTS text MAX_TTS_CHARACTERS else [text]) = pre ++ c :: post ->
  run env (play_chunks pre apiKey baseURL model voice speed) (stopCurrentAudio w)
    = (Resolved tt, wp) ->
  assoc (cacheKey c model voice speed) (lru_entries (audioCache wp)) = None ->
  fetch_fails (env_fetch env (List.length (fetchLog wp))
                 (speech_request c apiKey baseURL model voice speed)) ->
  exists e,
    run env (playTextWithTTS text apiKey baseURL model voice speed) w
    = (Rejected e, log_fetch (speech_request c apiKey baseURL model voice speed) wp).
Proof.
  intros Hpath Hpre Hmiss Hfail.
  unfold playTextWithTTS, modify. cbn [bind run]. cbv zeta.
  destruct (1 <? List.length (splitTextForTTS text MAX_TTS_CHARACTERS))%nat.
  - rewrite Hpath, run_play_chunks_app, Hpre. cbn [play_chunks].
    exact (resolve_audio_fetch_fails env _ c apiKey baseURL model voice speed _ wp Hmiss Hfail).
  - destruct pre as [|c0 pre]; [|destruct pre; discriminate].
    injection Hpath as <- _.
    cbn [play_chunks run] in Hpre. injection Hpre as <-.
    unfold play_single.
    exact (resolve_audio_fetch_fails env _ text apiKey baseURL model voice speed _
             (stopCurrentAudio w) Hmiss Hfail).
Qed.

(** C8 (as the code has it): a response with a non-ok status makes
    [fetchAudioFromAPI] reject, whatever the caller does next, with
    [http_error r]. Its message is [error.message] when that is a non-empty
    string, and the generic [HTTP error! status: <status>] when the body
    does not parse, has no [error], has an [error] object without
    [message], or has an empty [message]. *)
Theorem fetchAudioFromAPI_error_message {B} (env : @Env Number) text apiKey baseURL model
  voice speed (k : Blob -> @Proc Number B) w r :
  env_fetch env (List.length (fetchLog w)) (speech_request text apiKey baseURL model voice speed)
    = Responded r ->
  response_ok r = false ->
  let generic := Error (u "HTTP error! status: " ++ Z_to_dec (status r)) in
  run env (bind (fetchAudioFromAPI text apiKey baseURL model voice speed) k) w
    = (Rejected (http_error r), log_fetch (speech_request text apiKey baseURL model voice speed) w) /\
  (forall fs es m, body_json r = Some (JObj fs) ->
     lookup_field (u "error") fs = Some (JObj es) ->
     lookup_field (u "message") es = Some (JStr m) -> m <> [] ->
     http_error r = Error m) /\
  (body_json r = None -> http_error r = generic) /\
  (forall fs, body_json r = Some (JObj fs) -> lookup_field (u "error") fs = None ->
     http_error r = generic) /\
  (forall fs es, body_json r = Some (JObj fs) ->
     lookup_field (u "error") fs = Some (JObj es) ->
     lookup_field (u "message") es = None \/ lookup_field (u "message") es = Some (JStr []) ->
     http_error r = generic).
Proof.
  intros Hr Hok generic. split; [|split; [|split; [|split]]].
  - cbn. rewrite Hr. cbn. rewrite Hok. reflexivity.
  - intros fs es m Hb He Hm Hne.
    unfold http_error, opt_get_prop, get_prop. rewrite Hb. cbv beta iota zeta.
    rewrite He. cbv beta iota zeta. rewrite Hm. cbv beta iota zeta.
    destruct m as [|x m]; [congruence|reflexivity].
  - intros Hb. unfold http_error. rewrite Hb. reflexivity.
  - intros fs Hb He.
    unfold http_error, opt_get_prop, get_prop. rewrite Hb. cbv beta iota zeta.
    rewrite He. reflexivity.
  - intros fs es Hb He Hm.
    unfold http_error, opt_get_prop, get_prop. rewrite Hb. cbv beta iota zeta.
    rewrite He. cbv beta iota zeta.
    destruct Hm as [Hm|Hm]; rewrite Hm; reflexivity.
Qed.

(** *** The store of the cache *)








(** *** The shape of the world after the primitives *)

Lemma run_handler_shape h a w :
  exists c els, run_handler h a w =
    mkWorld c els (objectURLs w) (revoked w) (audioCache w) (fetchLog w) (events w).
Proof.
  destruct w; destruct h; cbn; unfold clear_if_current, getCurrentAudio; cbn;
    split_matches; eexists; eexists; reflexivity.
Qed.

Lemma fire_terminal_shape ended a w :
  exists c els ev, fst (fire_terminal ended a w) =
    mkWorld c els (objectURLs w) (revoked w) (audioCache w) (fetchLog w) ev.
Proof.
  unfold fire_terminal.
  destruct ended; cbn -[run_handler upd_audio];
    destruct (nth_error _ a) as [el|]; cbn -[run_handler upd_audio];
    try (eexists; eexists; eexists; reflexivity);
    [destruct (el_onended el) as [h|] | destruct (el_onerror el) as [h|]];
    cbn -[run_handler upd_audio]; try (eexists; eexists; eexists; reflexivity);
    match goal with
    | |- context [run_handler ?h ?a ?w] =>
        destruct (run_handler_shape h a w) as [c [els E]]; rewrite E
    end; eexists; eexists; eexists; reflexivity.
Qed.

(** The cache and the request log are untouched by playback. *)
Lemma ledger_frame (Q : AudioCache -> list FetchRequest -> Prop) :
  Frame (fun w => Q (audioCache w) (fetchLog w)).
Proof.
  split; intros; try assumption;
    try (unfold stopCurrentAudio; destruct (currentAudio w); assumption).
  destruct (fire_terminal_shape e a w) as [c [els [ev ->]]]. exact H0.
Qed.

Lemma run_bind_resolved {A B} (env : @Env Number) (p : @Proc Number A) (f : A -> Proc B) w b :
  fst (run env (bind p f) w) = Resolved b ->
  exists a w1, run env p w = (Resolved a, w1) /\ run env (bind p f) w = run env (f a) w1.
Proof.
  rewrite run_bind. destruct (run env p w) as [[a|e|] w1]; cbn; try discriminate.
  intros _. now exists a, w1.
Qed.













(** *** The audio elements of a call *)

Lemma upd_nth_length {A} n (f : A -> A) l : List.length (upd_nth n f l) = List.length l.
Proof.
  revert n; induction l as [|x t IH]; intros [|n]; cbn; auto.
Qed.

Lemma nth_upd_nth_same {A} n (f : A -> A) l :
  nth_error (upd_nth n f l) n = option_map f (nth_error l n).
Proof.
  revert n; induction l as [|x t IH]; intros [|n]; cbn; auto.
Qed.

Lemma nth_error_snoc {A} (l : list A) x : nth_error (l ++ [x]) (List.length l) = Some x.
Proof. induction l; cbn; auto. Qed.

(** The element a call has created, set up and started. *)
Lemma started_element url h1 h2 w :
  let a := List.length (audios w) in
  nth_error (audios (start_playing a (request_play a (set_handlers a h1 h2
     (setCurrentAudio (Some a) (snd (new_Audio url w))))))) a
  = Some (mkAudio url Playing false h1 h2).
Proof.
  cbv zeta. unfold start_playing, request_play, set_handlers, upd_audio.
  simpl_world. unfold setCurrentAudio, with_current. simpl_world.
  rewrite !nth_upd_nth_same, nth_error_snoc. reflexivity.
Qed.

Lemma fire_terminal_handler (ended : bool) a w el h :
  nth_error (audios w) a = Some el ->
  (if ended then el_onended el else el_onerror el) = Some h ->
  fire_terminal ended a w =
  (run_handler h a (with_events (events w ++ [if ended then PlaybackEnded a else PlaybackFailed a])
     (upd_audio a (el_with_status (if ended then Ended else Errored)) w)), settles h).
Proof.
  intros Hel Hh. unfold fire_terminal.
  unfold upd_audio at 1. simpl_world. rewrite nth_upd_nth_same, Hel. cbn [option_map].
  destruct ended; cbn [el_onended el_onerror el_with_status] in *; rewrite Hh; reflexivity.
Qed.

Lemma clear_if_current_events a w : events (clear_if_current a w) = events w.
Proof.
  unfold clear_if_current, getCurrentAudio.
  destruct (currentAudio w); [destruct (Nat.eqb _ _)|]; reflexivity.
Qed.

Lemma run_handler_events h a w : events (run_handler h a w) = events w.
Proof. destruct (run_handler_shape h a w) as [c [els ->]]. reflexivity. Qed.

Lemma events_cframe E0 : CacheFrame (fun w => events w = E0).
Proof. split; intros; assumption. Qed.

(** One chunk played to its end: it was started, then it ended. *)
Lemma play_chunk_and_wait_resolved (env : @Env Number) url w w' :
  run env (play_chunk_and_wait url) w = (Resolved tt, w') ->
  exists a, events w' = events w ++ [PlayStarted a; PlaybackEnded a].
Proof.
  intros Hrun. exists (List.length (audios w)).
  unfold play_chunk_and_wait, state, modify in Hrun. cbn [bind run] in Hrun.
  change (fst (new_Audio url w)) with (List.length (audios w)) in Hrun.
  pose proof (started_element url (Some ChunkEnded) (Some ChunkError) w) as Hel.
  cbv zeta in Hel.
  destruct (env_playback env _) eqn:Hpb; cbn [run] in Hrun; [discriminate| |].
  - rewrite (fire_terminal_handler true _ _ _ ChunkEnded Hel eq_refl) in Hrun.
    cbn [settles run] in Hrun. injection Hrun as <-.
    first [rewrite run_handler_events | rewrite clear_if_current_events].
    simpl_world. rewrite <- app_assoc. reflexivity.
  - rewrite (fire_terminal_handler false _ _ _ ChunkError Hel eq_refl) in Hrun.
    cbn [settles run] in Hrun. discriminate.
Qed.

Lemma play_chunks_resolved (env : @Env Number) chunks apiKey baseURL model voice speed w :
  fst (run env (play_chunks chunks apiKey baseURL model voice speed) w) = Resolved tt ->
  exists ids, List.length ids = List.length chunks /\
    events (snd (run env (play_chunks chunks apiKey baseURL model voice speed) w))
    = events w ++ flat_map (fun a => [PlayStarted a; PlaybackEnded a]) ids.
Proof.
  revert w. induction chunks as [|c rest IH]; intros w Hres.
  - exists []. cbn. split; [reflexivity|]. now rewrite app_nil_r.
  - cbn [play_chunks] in Hres |- *.
    destruct (run_bind_resolved _ _ _ _ _ Hres) as [url [w1 [H1 E1]]].
    rewrite E1 in Hres |- *.
    pose proof (preserves_resolve_audio _ (events_cframe (events w))
                  (cacheKey c model voice speed) c apiKey baseURL model voice speed
                  env w eq_refl) as Ev1.
    rewrite H1 in Ev1. cbn [snd] in Ev1.
    destruct (run_bind_resolved _ _ _ _ _ Hres) as [[] [w2 [H2 E2]]].
    rewrite E2 in Hres |- *.
    destruct (play_chunk_and_wait_resolved _ _ _ _ H2) as [a Ev2].
    destruct (IH w2 Hres) as [ids [Len Ev]].
    exists (a :: ids). split; [cbn; congruence|].
    rewrite Ev, Ev2, Ev1. cbn [flat_map]. rewrite <- !app_assoc. reflexivity.
Qed.

(** C2 (as the code has it): when [playTextWithTTS] resolves, a text of
    several chunks has had each chunk started and then played to its end,
    in order; a text of one chunk has had its audio started, and that audio
    is still playing and is the current audio: the promise resolves when
    playback starts, not when it ends. *)
Theorem playTextWithTTS_resolution (env : @Env Number) text apiKey baseURL model voice speed w :
  fst (run env (playTextWithTTS text apiKey baseURL model voice speed) w) = Resolved tt ->
  let w' := snd (run env (playTextWithTTS text apiKey baseURL model voice speed) w) in
  if (1 <? List.length (splitTextForTTS text MAX_TTS_CHARACTERS))%nat
  then exists ids,
         List.length ids = List.length (splitTextForTTS text MAX_TTS_CHARACTERS) /\
         events w' = events w ++ flat_map (fun a => [PlayStarted a; PlaybackEnded a]) ids
  else exists a,
         events w' = events w ++ [PlayStarted a] /\
         audio_status a w' = Some Playing /\ currentAudio w' = Some a.
Proof.
  intros Hres. cbv zeta.
  assert (Es : events (stopCurrentAudio w) = events w).
  { unfold stopCurrentAudio. destruct (currentAudio w); reflexivity. }
  unfold playTextWithTTS, modify in Hres |- *. cbn [bind run] in Hres |- *.
  cbv zeta in Hres |- *.
  destruct (1 <? _)%nat.
  - rewrite <- Es. apply play_chunks_resolved, Hres.
  - unfold play_single in Hres |- *.
    destruct (run_bind_resolved _ _ _ _ _ Hres) as [url [w1 [H1 E1]]].
    rewrite E1 in Hres |- *.
    pose proof (preserves_resolve_audio _ (events_cframe (events w))
                  (cacheKey text model voice speed) text apiKey baseURL model voice speed
                  env (stopCurrentAudio w) Es) as Ev1.
    rewrite H1 in Ev1. cbn [snd] in Ev1.
    exists (List.length (audios w1)).
    unfold state, modify in Hres |- *. cbn [bind run] in Hres |- *.
    change (fst (new_Audio url w1)) with (List.length (audios w1)) in Hres |- *.
    destruct (env_playback env _); cbn [run] in Hres |- *; [discriminate| |];
    (split; [|split]);
    [ unfold start_playing, request_play, set_handlers, upd_audio, setCurrentAudio,
        with_current; simpl_world; now rewrite Ev1
    | exact (f_equal (option_map el_status)
               (started_element url (Some Cleanup) (Some Cleanup) w1))
    | reflexivity
    | unfold start_playing, request_play, set_handlers, upd_audio, setCurrentAudio,
        with_current; simpl_world; now rewrite Ev1
    | exact (f_equal (option_map el_status)
               (started_element url (Some Cleanup) (Some Cleanup) w1))
    | reflexivity ].
Qed.

End Generic.

(** *** Concrete runs *)

(** C1: two overlapping calls. Each stops the current audio when it starts,
    while the other is still waiting for its render; once both renders
    arrive, both audio elements play at once. *)
Lemma overlapping_calls_both_play :
  let c := run_choices (mkConfig initial_world [])
             [Call (speak (u "a")); Call (speak (u "b"));
              FetchSettles 0 ok_response; AudioStarts 0;
              FetchSettles 1 ok_response; AudioStarts 1] in
  playing (cfg_world c) = [0; 1]%nat /\ currentAudio (cfg_world c) = Some 1%nat.
Proof. vm_compute. split; reflexivity. Qed.

(** C2: the single-chunk call resolves while its audio is still playing:
    only [PlayStarted 0] has happened. *)
Lemma playTextWithTTS_resolves_at_start_cex :
  let r := run env_ok (speak hello) initial_world in
  fst r = Resolved tt /\ audio_status 0 (snd r) = Some Playing /\
  events (snd r) = [PlayStarted 0].
Proof. vm_compute. repeat split. Qed.

Lemma playTextWithTTS_resolution_witness :
  let w' := snd (run env_ok (speak hello) initial_world) in
  if (1 <? List.length (splitTextForTTS hello MAX_TTS_CHARACTERS))%nat
  then exists ids,
         List.length ids = List.length (splitTextForTTS hello MAX_TTS_CHARACTERS) /\
         events w' = events initial_world
                     ++ flat_map (fun a => [PlayStarted a; PlaybackEnded a]) ids
  else exists a,
         events w' = events initial_world ++ [PlayStarted a] /\
         audio_status a w' = Some Playing /\ currentAudio w' = Some a.
Proof.
  apply (playTextWithTTS_resolution env_ok hello (u "sk-test")
           (u "https://api.openai.com/v1") tts_1 (u "alloy") 1%Z initial_world).
  vm_compute. reflexivity.
Defined.

(** C3: speaking ["Hello world"] with a full store (ten entries, URLs [0 .. 9],
    [k0] least recently used) renders it as URL [10] and evicts [k0].  No
    entry refers to URL [0] any more, yet URL [0] is not revoked.  Clearing
    the store then drops all ten entries and revokes none of the eleven URLs. *)
Lemma AudioCache_eviction_leaks_url :
  let w1 := snd (run env_ok (speak hello) full_world) in
  let w2 := snd (run env_ok cache_clear w1) in
  assoc (cache_key 0) (lru_entries (audioCache full_world)) = Some (mkCached 0 [Byte.x01]) /\
  lru_size (audioCache w1) = 10%nat /\
  existsb (fun kv => Nat.eqb (ca_url (snd kv)) 0) (lru_entries (audioCache w1)) = false /\
  nth_error (objectURLs w1) 0 = Some [Byte.x01] /\ revoked w1 = [] /\
  lru_entries (audioCache w2) = [] /\ List.length (objectURLs w2) = 11%nat /\ revoked w2 = [].
Proof. vm_compute. repeat split. Qed.



(** C8: a present but empty [error.message] gives the generic message. *)
Lemma fetchAudioFromAPI_empty_message_cex :
  fst (run (env_status 401 (error_body [])) (speak hello) initial_world)
    = Rejected (Error (u "HTTP error! status: 401")).
Proof. vm_compute. reflexivity. Qed.

(** Scenario D: status 401 with [{"error":{"message":"invalid api key"}}]. *)
Lemma fetchAudioFromAPI_error_message_witness :
  run (env_status 401 (error_body (u "invalid api key")))
    (bind (fetchAudioFromAPI hello (u "sk-test") (u "https://api.openai.com/v1") tts_1
             (u "alloy") 1%Z) (fun _ => Ret tt)) initial_world
  = (Rejected (Error (u "invalid api key")),
     log_fetch (speech_request hello (u "sk-test") (u "https://api.openai.com/v1") tts_1
                  (u "alloy") 1%Z) initial_world).
Proof.
  destruct (fetchAudioFromAPI_error_message (env_status 401 (error_body (u "invalid api key")))
              hello (u "sk-test") (u "https://api.openai.com/v1") tts_1 (u "alloy") 1%Z
              (fun _ => Ret tt) initial_world
              (mkResponse 401 (error_body (u "invalid api key")) [])
              ltac:(reflexivity) ltac:(vm_compute; reflexivity))
    as [Hrun [Hmsg _]].
  rewrite Hrun, (Hmsg _ _ (u "invalid api key") eq_refl eq_refl eq_refl); [reflexivity|].
  discriminate.
Defined.

(** C10: a text of two chunks from an empty cache; the first render
    succeeds, the second is answered with status 500. *)
Lemma playTextWithTTS_render_failure_witness :
  let chunks := splitTextForTTS long_text MAX_TTS_CHARACTERS in
  let wp := snd (run (env_fail_from 1)
                   (play_chunks (firstn 1 chunks) (u "sk-test") (u "https://api.openai.com/v1")
                      tts_1 (u "alloy") 1%Z) (stopCurrentAudio initial_world)) in
  exists e,
    run (env_fail_from 1) (speak long_text) initial_world
    = (Rejected e, log_fetch (speech_request (nth 1 chunks []) (u "sk-test")
                                (u "https://api.openai.com/v1") tts_1 (u "alloy") 1%Z) wp).
Proof.
  apply (playTextWithTTS_render_failure (env_fail_from 1) long_text (u "sk-test")
           (u "https://api.openai.com/v1") tts_1 (u "alloy") 1%Z initial_world
           (firstn 1 (splitTextForTTS long_text MAX_TTS_CHARACTERS))
           (nth 1 (splitTextForTTS long_text MAX_TTS_CHARACTERS) []) []).
  - vm_compute. reflexivity.
  - vm_compute. reflexivity.
  - vm_compute. reflexivity.
  - vm_compute. reflexivity.
Defined.

End TtsFacts.

(** ** Further properties of the chunker *)
Module ChunkerExtra.
Import JStr Chunker ChunkerFacts Shapes.
Local Open Scope Z_scope.

Lemma drop_ws_snoc l h : is_ws h = false -> drop_ws (l ++ [h]) = drop_ws l ++ [h].
Proof.
  intros Hh. induction l as [|c l IH]; cbn; [now rewrite Hh|].
  destruct (is_ws c); [exact IH|reflexivity].
Qed.

Lemma drop_ws_head s : drop_ws s = [] \/ exists h t, drop_ws s = h :: t /\ is_ws h = false.
Proof.
  induction s as [|c s IH]; cbn; [now left|].
  destruct (is_ws c) eqn:E; [exact IH|right; eauto].
Qed.

Lemma last_rev_hd (l : jstr) d : last (rev l) d = hd d l.
Proof. destruct l as [|a l]; [reflexivity|]. cbn [rev hd]. apply last_last. Qed.

(** A trimmed string that is not empty starts and ends with a
    non-whitespace code unit. *)
Lemma trim_edges x :
  trim x <> [] -> is_ws (hd 0%N (trim x)) = false /\ is_ws (last (trim x) 0%N) = false.
Proof.
  unfold trim. intros Hne.
  destruct (drop_ws_head x) as [E|[h [t [E Hh]]]]; [rewrite E in Hne; cbn in Hne; congruence|].
  rewrite E in *. cbn [rev] in *. rewrite last_rev_hd.
  rewrite drop_ws_snoc in * by exact Hh.
  split.
  - rewrite rev_app_distr. exact Hh.
  - destruct (drop_ws_head (rev t ++ [h])) as [E2|[h2 [t2 [E2 Hh2]]]].
    + rewrite drop_ws_snoc in E2 by exact Hh. destruct (drop_ws (rev t)); discriminate.
    + rewrite drop_ws_snoc in E2 by exact Hh. rewrite E2. exact Hh2.
Qed.


Lemma push_trimmed st : trimmed_chunks st -> Forall (fun c => exists x, c = trim x) (push_current st).
Proof.
  intros H. unfold push_current. apply Forall_app. split; [exact H|]. constructor; eauto.
Qed.

Lemma word_step_trimmed maxChars st w :
  trimmed_chunks st -> trimmed_chunks (word_step maxChars st w).
Proof.
  intros H. unfold word_step, trimmed_chunks.
  destruct (_ >? _); cbn [chunks]; [|exact H].
  destruct (truthy _); [now apply push_trimmed|exact H].
Qed.

Lemma fold_word_step_trimmed maxChars words st :
  trimmed_chunks st -> trimmed_chunks (fold_left (word_step maxChars) words st).
Proof.
  revert st; induction words as [|w words IH]; intros st H; cbn; [exact H|].
  apply IH, word_step_trimmed, H.
Qed.

Lemma sentence_step_trimmed maxChars st s :
  trimmed_chunks st -> trimmed_chunks (sentence_step maxChars st s).
Proof.
  intros H. unfold sentence_step.
  destruct (negb (truthy s)); [exact H|].
  destruct (len s >? maxChars).
  - apply fold_word_step_trimmed.
    destruct (truthy (currentChunk st)); [now apply push_trimmed|exact H].
  - destruct (_ >? _); [now apply push_trimmed|exact H].
Qed.

Lemma fold_sentence_step_trimmed maxChars sentences st :
  trimmed_chunks st -> trimmed_chunks (fold_left (sentence_step maxChars) sentences st).
Proof.
  revert st; induction sentences as [|s ss IH]; intros st H; cbn; [exact H|].
  apply IH, sentence_step_trimmed, H.
Qed.

(** X1: for a text longer than [maxChars], every chunk of [splitTextForTTS]
    is non-empty and neither starts nor ends with whitespace: each one is
    the [trim()] of some text and the empty ones are filtered out. *)
Theorem splitTextForTTS_chunks_trimmed (text : jstr) (maxChars : Z) :
  maxChars < len text ->
  Forall (fun c => c <> [] /\ is_ws (hd 0%N c) = false /\ is_ws (last c 0%N) = false)
         (splitTextForTTS text maxChars).
Proof.
  intros Hlong. unfold splitTextForTTS.
  replace (len text <=? maxChars) with false by (symmetry; apply Z.leb_gt; lia).
  set (st := fold_left (sentence_step maxChars)
               (regex_split match_sentence_sep text) (mkCS [] [])).
  assert (Ht : trimmed_chunks st) by (apply fold_sentence_step_trimmed; constructor).
  assert (Hf : Forall (fun c => exists x, c = trim x)
                 (if truthy (currentChunk st) then push_current st else chunks st)).
  { destruct (truthy (currentChunk st)); [now apply push_trimmed|exact Ht]. }
  apply Forall_forall. intros c Hc. apply filter_In in Hc as [Hc Hlen].
  eapply Forall_forall in Hf; [|exact Hc]. destruct Hf as [x Ex]. subst c.
  assert (Hne : trim x <> []) by (intros E; rewrite E in Hlen; discriminate).
  split; [exact Hne|]. now apply trim_edges.
Qed.

(** The non-whitespace content of the chunks is that of the text. *)
Lemma splitTextForTTS_content (text : jstr) (maxChars : Z) :
  List.concat (map non_ws (splitTextForTTS text maxChars)) = non_ws text.
Proof.
  unfold splitTextForTTS.
  destruct (len text <=? maxChars).
  - cbn. apply app_nil_r.
  - rewrite filter_nonempty_content.
    set (st := fold_left (sentence_step maxChars)
                 (regex_split match_sentence_sep text) (mkCS [] [])).
    transitivity (content st).
    + destruct (truthy (currentChunk st)) eqn:Ec.
      * apply content_push.
      * symmetry. now apply content_empty_current.
    + unfold st. rewrite fold_sentence_step_content, regex_split_concat. reflexivity.
Qed.

Lemma non_ws_nil s : non_ws s = [] <-> all_ws s.
Proof.
  unfold non_ws, all_ws. induction s as [|c s IH]; cbn; [split; [intros _ c []|reflexivity]|].
  destruct (is_ws c) eqn:E; cbn [negb].
  - rewrite IH. split; [intros H d [<-|Hd]; auto|intros H d Hd; auto].
  - split; [discriminate|]. intros H. rewrite (H c (or_introl eq_refl)) in E. discriminate.
Qed.

(** X2: for a text longer than [maxChars], [splitTextForTTS] returns no
    chunk at all exactly when the text is all whitespace. *)
Theorem splitTextForTTS_long_empty (text : jstr) (maxChars : Z) :
  maxChars < len text ->
  (splitTextForTTS text maxChars = [] <-> all_ws text).
Proof.
  intros Hlong. rewrite <- non_ws_nil, <- (splitTextForTTS_content text maxChars).
  pose proof (splitTextForTTS_chunks_trimmed text maxChars Hlong) as Ht.
  destruct (splitTextForTTS text maxChars) as [|c l]; [split; reflexivity|].
  split; [discriminate|]. intros E.
  inversion Ht as [|? ? [Hne [Hh _]] _]; subst.
  destruct c as [|h t]; [congruence|]. cbn [hd] in Hh.
  cbn [map List.concat non_ws filter] in E. rewrite Hh in E. discriminate.
Qed.
End ChunkerExtra.

(** ** Further properties of the calls *)
Module TtsExtra.
Import JStr Chunker Tts Concrete Reading Shapes TtsFacts.

Lemma read_raw c r :
  (c =? 34)%N = false -> (c =? 92)%N = false ->
  read_json_string (c :: r) = cons_fst c (read_json_string r).
Proof. intros H1 H2. cbn [read_json_string]. now rewrite H1, H2. Qed.

Lemma hex_val_digit n : (n < 16)%N -> hex_val (hex_digit n) = n.
Proof.
  intros Hn. unfold hex_digit, hex_val.
  destruct (n <? 10)%N eqn:E.
  - apply N.ltb_lt in E.
    replace ((48 <=? 48 + n) && (48 + n <=? 57))%N with true; [lia|].
    symmetry. apply andb_true_intro. split; apply N.leb_le; lia.
  - apply N.ltb_ge in E.
    replace ((48 <=? 87 + n) && (87 + n <=? 57))%N with false; [lia|].
    symmetry. apply andb_false_intro2. apply N.leb_gt. lia.
Qed.


Lemma check_from_ok f c0 t c :
  check_from f c0 t = true -> (c0 <= c < c0 + N.of_nat f)%N -> t c = true.
Proof.
  revert c0. induction f as [|f IH]; intros c0 Hc Hr; cbn in *; [lia|].
  apply andb_prop in Hc as [H1 H2].
  destruct (N.eq_dec c c0) as [->|Hne]; [exact H1|].
  apply (IH (c0 + 1)%N H2). lia.
Qed.


Lemma hex4_u_escape c : (c < 65536)%N ->
  hex4 (hex_digit (N.modulo (c / 4096) 16)) (hex_digit (N.modulo (c / 256) 16))
       (hex_digit (N.modulo (c / 16) 16)) (hex_digit (N.modulo c 16)) = c.
Proof.
  intros Hc. apply N.eqb_eq.
  apply (check_from_ok (N.to_nat 65536) 0 hex4_test); [vm_compute; reflexivity|].
  rewrite N2Nat.id. lia.
Qed.

Lemma read_u_escape c r : (c < 65536)%N ->
  read_json_string (u_escape c ++ r) = cons_fst c (read_json_string r).
Proof.
  intros Hc. unfold u_escape. cbn [app read_json_string N.eqb Pos.eqb].
  now rewrite hex4_u_escape.
Qed.
Lemma read_escape_unit c r :
  is_high_surrogate c = false -> is_low_surrogate c = false ->
  read_json_string (escape_unit c ++ r) = cons_fst c (read_json_string r).
Proof.
  intros Hh Hl.
  destruct (N.lt_ge_cases c 32) as [Hs|Hs].
  - destruct (N.lt_ge_cases c 1) as [H0|H0]; [replace c with 0%N by lia; reflexivity|].
    destruct c as [|p]; [lia|].
    do 5 (try destruct p as [p|p|]); try reflexivity; lia.
  - unfold escape_unit.
    destruct c as [|p]; [lia|].
    do 8 (try destruct p as [p|p|]); try reflexivity; try lia.
Qed.
Lemma read_quote_units s r :
  read_json_string (quote_units s ++ 34%N :: r) = Some (s, r).
Proof.
  remember (List.length s) as n eqn:En.
  revert s En. induction n as [n IH] using lt_wf_ind. intros s En.
  destruct s as [|c t]; [reflexivity|].
  cbn [List.length] in En.
  cbn [quote_units].
  destruct (is_high_surrogate c) eqn:Hh.
  - assert (Hc : (55296 <= c <= 56319)%N).
    { unfold is_high_surrogate in Hh. apply andb_prop in Hh as [A B].
      apply N.leb_le in A. apply N.leb_le in B. lia. }
    destruct t as [|d t'].
    + rewrite read_u_escape by lia. reflexivity.
    + destruct (is_low_surrogate d) eqn:Hl.
      * assert (Hd : (56320 <= d <= 57343)%N).
        { unfold is_low_surrogate in Hl. apply andb_prop in Hl as [A B].
          apply N.leb_le in A. apply N.leb_le in B. lia. }
        cbn [app]. rewrite read_raw by (apply N.eqb_neq; lia).
        rewrite read_raw by (apply N.eqb_neq; lia).
        rewrite (IH (List.length t')) by (cbn in En; lia || reflexivity). reflexivity.
      * rewrite <- app_assoc, read_u_escape by lia.
        rewrite (IH (List.length (d :: t'))) by (lia || reflexivity). reflexivity.
  - destruct (is_low_surrogate c) eqn:Hl.
    + assert (Hc : (c < 65536)%N).
      { unfold is_low_surrogate in Hl. apply andb_prop in Hl as [A B].
        apply N.leb_le in B. lia. }
      rewrite <- app_assoc, read_u_escape by lia.
      rewrite (IH (List.length t)) by (lia || reflexivity). reflexivity.
    + rewrite <- app_assoc, read_escape_unit by assumption.
      rewrite (IH (List.length t)) by (lia || reflexivity). reflexivity.
Qed.
Section Keys.
Context {Number : Type} `{JSNumber Number}.

Lemma cacheKey_shape text model voice (speed : Number) :
  cacheKey text model voice speed =
  ([123] ++ json_string (u "text") ++ [58; 34])%N ++ quote_units text ++ 34%N ::
  (([44] ++ json_string (u "model") ++ [58; 34])%N ++ quote_units (TTSModel_str model) ++ 34%N ::
  (([44] ++ json_string (u "voice") ++ [58; 34])%N ++ quote_units voice ++ 34%N ::
  (([44] ++ json_string (u "speed") ++ [58])%N ++ Number_toJSON speed ++ [125%N]))).
Proof.
  unfold cacheKey, json_object, json_string. cbn [map fst snd join_comma].
  repeat rewrite <- app_assoc. reflexivity.
Qed.

Lemma read_after prefix s1 s2 r1 r2 :
  prefix ++ quote_units s1 ++ 34%N :: r1 = prefix ++ quote_units s2 ++ 34%N :: r2 ->
  s1 = s2 /\ r1 = r2.
Proof.
  intros E. apply app_inv_head in E.
  apply (f_equal read_json_string) in E. rewrite !read_quote_units in E.
  injection E as -> ->. split; reflexivity.
Qed.

Lemma TTSModel_str_inj m1 m2 : TTSModel_str m1 = TTSModel_str m2 -> m1 = m2.
Proof. destruct m1, m2; cbn; congruence. Qed.

(** X3: the cache key [JSON.stringify({text, model, voice, speed})] determines
    the text, the model and the voice: two calls with the same key have
    the same text, model and voice. *)
Theorem cacheKey_injective text1 text2 model1 model2 voice1 voice2 (speed1 speed2 : Number) :
  cacheKey text1 model1 voice1 speed1 = cacheKey text2 model2 voice2 speed2 ->
  text1 = text2 /\ model1 = model2 /\ voice1 = voice2.
Proof.
  rewrite !cacheKey_shape. intros E.
  apply read_after in E as [-> E].
  apply read_after in E as [Em E].
  apply read_after in E as [-> _].
  apply TTSModel_str_inj in Em as ->. auto.
Qed.
End Keys.

Section Requests.
Context {Number : Type} `{JSNumber Number}.

Ltac simpl_world :=
  cbn [with_current with_audios with_urls with_cache with_fetchLog with_events log_fetch
       createObjectURL new_Audio currentAudio audios objectURLs revoked audioCache
       fetchLog events lru_capacity lru_entries fst snd] in *.

Lemma log_frame L : Frame (fun w : World => fetchLog w = L).
Proof. exact (ledger_frame (fun _ l => l = L)). Qed.

(** A lookup-or-render sends no request, or the request for its text. *)
Lemma resolve_audio_log (env : @Env Number) key text apiKey baseURL model voice speed w :
  exists l, (l = [] \/ l = [text]) /\
    fetchLog (snd (run env (resolve_audio key text apiKey baseURL model voice speed) w))
    = fetchLog w ++ map (fun c => speech_request c apiKey baseURL model voice speed) l.
Proof.
  unfold resolve_audio, cache_get, state. cbn [bind run fst snd].
  unfold AudioCache_get, lru_get.
  destruct (assoc key (lru_entries (audioCache w))) as [c|].
  - exists []. split; [now left|]. cbn. now rewrite app_nil_r.
  - exists [text]. split; [now right|]. simpl_world. rewrite with_cache_same.
    cbn [bind run fetchAudioFromAPI].
    destruct (env_fetch _ _ _) as [e|r]; cbn; [reflexivity|].
    destruct (response_ok r); reflexivity.
Qed.

Lemma subseq_nil_l {A} (m : list A) : subseq [] m.
Proof. induction m; constructor; assumption. Qed.

Lemma play_chunks_log (env : @Env Number) chunks apiKey baseURL model voice speed w :
  exists l, subseq l chunks /\
    fetchLog (snd (run env (play_chunks chunks apiKey baseURL model voice speed) w))
    = fetchLog w ++ map (fun c => speech_request c apiKey baseURL model voice speed) l.
Proof.
  revert w. induction chunks as [|c rest IH]; intros w.
  - exists []. split; [constructor|]. cbn. now rewrite app_nil_r.
  - cbn [play_chunks]. rewrite run_bind.
    destruct (resolve_audio_log env (cacheKey c model voice speed) c apiKey baseURL model voice
                speed w) as [l1 [Hl1 E1]].
    destruct (run env (resolve_audio _ _ _ _ _ _ _) w) as [[url|e|] w1] eqn:R1;
      cbn [snd] in E1 |- *.
    2,3: exists l1; split; [destruct Hl1 as [->| ->]; [apply subseq_nil_l|apply subseq_take, subseq_nil_l]|exact E1].
    rewrite run_bind.
    pose proof (preserves_play_chunk_and_wait _ (log_frame (fetchLog w1)) url env w1 eq_refl) as E2.
    destruct (run env (play_chunk_and_wait url) w1) as [[[]|e|] w2] eqn:R2; cbn [snd] in E2 |- *.
    2,3: exists l1; split; [destruct Hl1 as [->| ->]; [apply subseq_nil_l|apply subseq_take, subseq_nil_l]|congruence].
    destruct (IH w2) as [l3 [Hl3 E3]].
    exists (l1 ++ l3). split.
    + destruct Hl1 as [->| ->]; cbn; constructor; exact Hl3.
    + rewrite E3, E2, E1, map_app, app_assoc. reflexivity.
Qed.

(** X5: the render requests a call sends are those of a subsequence of its
    chunks (of [[text]] on the single-chunk path), in order, each sent at
    most once and each for its own chunk with the call's settings. *)
Theorem playTextWithTTS_requests (env : @Env Number) text apiKey baseURL model voice speed w :
  exists l,
    subseq l (if (1 <? List.length (splitTextForTTS text MAX_TTS_CHARACTERS))%nat
              then splitTextForTTS text MAX_TTS_CHARACTERS else [text]) /\
    fetchLog (snd (run env (playTextWithTTS text apiKey baseURL model voice speed) w))
    = fetchLog w ++ map (fun c => speech_request c apiKey baseURL model voice speed) l.
Proof.
  assert (Es : fetchLog (stopCurrentAudio w) = fetchLog w) by apply stopCurrentAudio_cache.
  unfold playTextWithTTS, modify. cbn [bind run]. cbv zeta.
  destruct (1 <? _)%nat.
  - rewrite <- Es. apply play_chunks_log.
  - unfold play_single. rewrite run_bind.
    destruct (resolve_audio_log env (cacheKey text model voice speed) text apiKey baseURL model
                voice speed (stopCurrentAudio w)) as [l1 [Hl1 E1]].
    rewrite Es in E1. exists l1. split; [destruct Hl1 as [->| ->]; [apply subseq_nil_l|apply subseq_take, subseq_nil]|].
    destruct (run env (resolve_audio _ _ _ _ _ _ _) _) as [[url|e|] w1] eqn:R1;
      cbn [snd] in E1 |- *; [|exact E1..].
    cbv beta.
    rewrite (preserves_play_url _ (log_frame (fetchLog w1)) url env w1 eq_refl).
    exact E1.
Qed.
End Requests.
Section Outcomes.
Context {Number : Type} `{JSNumber Number}.

Ltac simpl_world :=
  cbn [with_current with_audios with_urls with_cache with_fetchLog with_events log_fetch
       createObjectURL new_Audio currentAudio audios objectURLs revoked audioCache
       fetchLog events lru_capacity lru_entries fst snd] in *.


Lemma resolve_audio_ok (env : @Env Number) key text apiKey baseURL model voice speed w :
  fetch_ok env ->
  exists url w1,
    run env (resolve_audio key text apiKey baseURL model voice speed) w = (Resolved url, w1) /\
    audios w1 = audios w /\ currentAudio w1 = currentAudio w /\
    (List.length (fetchLog w1) <= S (List.length (fetchLog w)))%nat.
Proof.
  intros Hf.
  unfold resolve_audio, cache_get, state. cbn [bind run fst snd].
  unfold AudioCache_get, lru_get.
  destruct (assoc key (lru_entries (audioCache w))) as [c|].
  - cbn. eexists; eexists; split; [reflexivity|]. simpl_world. auto.
  - simpl_world. rewrite with_cache_same. cbn [bind run fetchAudioFromAPI].
    destruct (Hf (List.length (fetchLog w)) (speech_request text apiKey baseURL model voice speed))
      as [r [Er Ok]].
    rewrite Er. cbn [bind run]. rewrite Ok. cbn.
    eexists; eexists; split; [reflexivity|]. simpl_world.
    rewrite length_app. cbn. split; [reflexivity|]. split; [reflexivity|]. lia.
Qed.

Lemma nth_upd_nth_other {A} n m (f : A -> A) l :
  n <> m -> nth_error (upd_nth n f l) m = nth_error l m.
Proof.
  revert n m; induction l as [|x t IH]; intros [|n] [|m] Hne; cbn; auto; try congruence.
Qed.


Lemma set_up_facts url h1 h2 w :
  let a := List.length (audios w) in
  currentAudio (set_up url h1 h2 w) = Some a /\
  nth_error (audios (set_up url h1 h2 w)) a = Some (mkAudio url PlayPending true h1 h2) /\
  fetchLog (set_up url h1 h2 w) = fetchLog w.
Proof.
  cbv zeta. unfold set_up, request_play, set_handlers, upd_audio, setCurrentAudio, with_current.
  simpl_world. rewrite !nth_upd_nth_same, nth_error_snoc. auto.
Qed.

Lemma run_play_chunk_and_wait (env : @Env Number) url w :
  run env (play_chunk_and_wait url) w =
  run env (AwaitSettle (List.length (audios w))
             (fun r => match r with None => Ret tt | Some e => Throw e end))
      (set_up url (Some ChunkEnded) (Some ChunkError) w).
Proof. reflexivity. Qed.

(** A chunk's element whose [play()] is refused. *)
Lemma play_chunk_and_wait_refused (env : @Env Number) url w e :
  env_playback env (List.length (audios w)) = PlayRejects e ->
  let a := List.length (audios w) in
  exists w', run env (play_chunk_and_wait url) w = (Rejected e, w') /\
    currentAudio w' = Some a /\ audio_status a w' = Some Idle /\ fetchLog w' = fetchLog w.
Proof.
  intros Hp. cbv zeta. rewrite run_play_chunk_and_wait. cbn [run]. rewrite Hp. cbn [run].
  eexists; split; [reflexivity|].
  destruct (set_up_facts url (Some ChunkEnded) (Some ChunkError) w) as [Hc [Hel Hl]].
  unfold play_rejected, upd_audio, audio_status. simpl_world.
  rewrite nth_upd_nth_same, Hel. auto.
Qed.

(** A chunk's element that starts, then fires [error]. *)
Lemma play_chunk_and_wait_error (env : @Env Number) url w :
  env_playback env (List.length (audios w)) = PlaysThenErrors ->
  let a := List.length (audios w) in
  exists w', run env (play_chunk_and_wait url) w
             = (Rejected (Error (u "Audio playback error")), w') /\
    currentAudio w' = None /\ audio_status a w' = Some Errored /\ fetchLog w' = fetchLog w.
Proof.
  intros Hp. cbv zeta. rewrite run_play_chunk_and_wait. cbn [run]. rewrite Hp.
  pose proof (started_element url (Some ChunkEnded) (Some ChunkError) w) as Hel.
  cbv zeta in Hel. fold (set_up url (Some ChunkEnded) (Some ChunkError) w) in Hel.
  rewrite (fire_terminal_handler false _ _ _ ChunkError Hel eq_refl).
  cbn [settles run].
  eexists; split; [reflexivity|].
  destruct (set_up_facts url (Some ChunkEnded) (Some ChunkError) w) as [Hc [Hn Hl]].
  cbn [run_handler]. unfold clear_if_current, getCurrentAudio.
  unfold start_playing, upd_audio, with_events at 1. simpl_world.
  rewrite Hc, Nat.eqb_refl.
  unfold setCurrentAudio, with_current, audio_status. simpl_world.
  split; [reflexivity|]. split; [|exact Hl].
  rewrite nth_upd_nth_same, nth_upd_nth_same, Hn. reflexivity.
Qed.

Lemma run_play_url (env : @Env Number) url w :
  run env
    (bind (state (new_Audio url)) (fun audio =>
     bind (modify (setCurrentAudio (Some audio))) (fun _ =>
     bind (modify (set_handlers audio (Some Cleanup) (Some Cleanup))) (fun _ =>
     bind (modify (request_play audio)) (fun _ =>
     AwaitPlay audio (fun r => match r with None => Ret tt | Some e => Throw e end)))))) w =
  run env (AwaitPlay (List.length (audios w))
             (fun r => match r with None => Ret tt | Some e => Throw e end))
      (set_up url (Some Cleanup) (Some Cleanup) w).
Proof. reflexivity. Qed.

Lemma stop_audios_length w :
  List.length (audios (stopCurrentAudio w)) = List.length (audios w).
Proof.
  unfold stopCurrentAudio. destruct (currentAudio w); [|reflexivity].
  unfold setCurrentAudio, with_current, upd_audio. simpl_world. apply upd_nth_length.
Qed.

Lemma split_multi text :
  (1 <? List.length (splitTextForTTS text MAX_TTS_CHARACTERS))%nat = true ->
  exists c rest, splitTextForTTS text MAX_TTS_CHARACTERS = c :: rest.
Proof.
  destruct (splitTextForTTS text MAX_TTS_CHARACTERS) as [|c rest]; [discriminate|eauto].
Qed.

(** X6: when every render succeeds and the first audio element's [play()] is
    refused, the call rejects with the refusal's error; that element stays
    current, paused ([Idle]), and at most one request was sent. *)
Theorem playTextWithTTS_play_refused (env : @Env Number) text apiKey baseURL model voice speed
  w e :
  fetch_ok env ->
  env_playback env (List.length (audios w)) = PlayRejects e ->
  let a := List.length (audios w) in
  let w' := snd (run env (playTextWithTTS text apiKey baseURL model voice speed) w) in
  fst (run env (playTextWithTTS text apiKey baseURL model voice speed) w) = Rejected e /\
  currentAudio w' = Some a /\ audio_status a w' = Some Idle /\
  (List.length (fetchLog w') <= S (List.length (fetchLog w)))%nat.
Proof.
  intros Hf Hp. cbv zeta.
  assert (El : fetchLog (stopCurrentAudio w) = fetchLog w) by apply stopCurrentAudio_cache.
  pose proof (stop_audios_length w) as Ea0.
  unfold playTextWithTTS, modify. cbn [bind run]. cbv zeta.
  destruct (1 <? _)%nat eqn:Hm.
  - destruct (split_multi text Hm) as [c [rest ->]].
    cbn [play_chunks]. rewrite run_bind.
    destruct (resolve_audio_ok env (cacheKey c model voice speed) c apiKey baseURL model voice
                speed (stopCurrentAudio w) Hf) as [url [w1 [R [Ea [_ Hl]]]]].
    rewrite R, run_bind.
    assert (Hp1 : env_playback env (List.length (audios w1)) = PlayRejects e) by congruence.
    destruct (play_chunk_and_wait_refused env url w1 e Hp1) as [w' [R2 [Hc [Hs Hl2]]]].
    rewrite R2. cbn [fst snd]. rewrite Ea, Ea0 in Hc, Hs.
    split; [reflexivity|]. split; [exact Hc|]. split; [exact Hs|]. rewrite Hl2, <- El. exact Hl.
  - unfold play_single. rewrite run_bind.
    destruct (resolve_audio_ok env (cacheKey text model voice speed) text apiKey baseURL model
                voice speed (stopCurrentAudio w) Hf) as [url [w1 [R [Ea [_ Hl]]]]].
    rewrite R. cbv beta. rewrite run_play_url. cbn [run].
    assert (Hp1 : env_playback env (List.length (audios w1)) = PlayRejects e) by congruence.
    rewrite Hp1. cbn [run fst snd].
    destruct (set_up_facts url (Some Cleanup) (Some Cleanup) w1) as [Hc [Hn Hl2]].
    unfold play_rejected, upd_audio, audio_status. simpl_world.
    rewrite Ea, Ea0 in *. rewrite nth_upd_nth_same, Hn.
    split; [reflexivity|]. split; [exact Hc|]. split; [reflexivity|].
    rewrite Hl2, <- El. exact Hl.
Qed.

(** X7: on the multi-chunk path, when every render succeeds and the first
    chunk's audio starts then fires [error], the call rejects with
    [Error("Audio playback error")]; no audio is current, the element is
    [Errored], and at most one request was sent. *)
Theorem playTextWithTTS_chunk_error (env : @Env Number) text apiKey baseURL model voice speed w :
  (1 <? List.length (splitTextForTTS text MAX_TTS_CHARACTERS))%nat = true ->
  fetch_ok env ->
  env_playback env (List.length (audios w)) = PlaysThenErrors ->
  let a := List.length (audios w) in
  let w' := snd (run env (playTextWithTTS text apiKey baseURL model voice speed) w) in
  fst (run env (playTextWithTTS text apiKey baseURL model voice speed) w)
    = Rejected (Error (u "Audio playback error")) /\
  currentAudio w' = None /\ audio_status a w' = Some Errored /\
  (List.length (fetchLog w') <= S (List.length (fetchLog w)))%nat.
Proof.
  intros Hm Hf Hp. cbv zeta.
  assert (El : fetchLog (stopCurrentAudio w) = fetchLog w) by apply stopCurrentAudio_cache.
  pose proof (stop_audios_length w) as Ea0.
  unfold playTextWithTTS, modify. cbn [bind run]. cbv zeta. rewrite Hm.
  destruct (split_multi text Hm) as [c [rest ->]].
  cbn [play_chunks]. rewrite run_bind.
  destruct (resolve_audio_ok env (cacheKey c model voice speed) c apiKey baseURL model voice
              speed (stopCurrentAudio w) Hf) as [url [w1 [R [Ea [_ Hl]]]]].
  rewrite R, run_bind.
  assert (Hp1 : env_playback env (List.length (audios w1)) = PlaysThenErrors) by congruence.
  destruct (play_chunk_and_wait_error env url w1 Hp1) as [w' [R2 [Hc [Hs Hl2]]]].
  rewrite R2. cbn [fst snd]. rewrite Ea, Ea0 in Hs.
  split; [reflexivity|]. split; [exact Hc|]. split; [exact Hs|]. rewrite Hl2, <- El. exact Hl.
Qed.

Lemma clear_if_current_self a X :
  currentAudio X = Some a ->
  currentAudio (clear_if_current a X) = None /\ audios (clear_if_current a X) = audios X.
Proof.
  intros Hc. unfold clear_if_current, getCurrentAudio. rewrite Hc, Nat.eqb_refl.
  split; reflexivity.
Qed.

(** X8: on the single-chunk path, once the call has resolved its audio [a] is
    current; when [a] later fires [ended] or [error], [cleanup] runs: it
    settles nothing, clears the current audio, and removes both handlers of
    [a], which is then [Ended] or [Errored]. *)
Theorem playTextWithTTS_single_cleanup (env : @Env Number) text apiKey baseURL model voice speed
  w w' :
  (1 <? List.length (splitTextForTTS text MAX_TTS_CHARACTERS))%nat = false ->
  run env (playTextWithTTS text apiKey baseURL model voice speed) w = (Resolved tt, w') ->
  exists a, currentAudio w' = Some a /\
    forall ended : bool,
      let (w'', s) := fire_terminal ended a w' in
      s = None /\ currentAudio w'' = None /\
      exists el, nth_error (audios w'') a = Some el /\
        el_status el = (if ended then Ended else Errored) /\
        el_onended el = None /\ el_onerror el = None.
Proof.
  intros Hm Hrun.
  unfold playTextWithTTS, modify in Hrun. cbn [bind run] in Hrun. cbv zeta in Hrun.
  rewrite Hm in Hrun. unfold play_single in Hrun. rewrite run_bind in Hrun.
  destruct (run env (resolve_audio _ _ _ _ _ _ _) _) as [[url|e|] w1]; [|discriminate..].
  cbv beta in Hrun. rewrite run_play_url in Hrun. cbn [run] in Hrun.
  set (a := List.length (audios w1)) in *.
  destruct (env_playback env a); cbn [run] in Hrun; [discriminate| |].
  all: injection Hrun as <-;
    destruct (set_up_facts url (Some Cleanup) (Some Cleanup) w1) as [Hc [Hn _]];
    cbv zeta in Hc, Hn; fold a in Hc, Hn;
    set (W0 := set_up url (Some Cleanup) (Some Cleanup) w1) in *;
    assert (Hel : nth_error (audios (start_playing a W0)) a
                  = Some (mkAudio url Playing false (Some Cleanup) (Some Cleanup)))
      by (unfold start_playing, upd_audio; cbn [audios with_events with_audios];
          rewrite nth_upd_nth_same, Hn; reflexivity);
    assert (Hc' : currentAudio (start_playing a W0) = Some a) by exact Hc;
    exists a; split; [exact Hc'|];
    intros ended;
    rewrite (fire_terminal_handler ended _ _ _ Cleanup Hel) by (destruct ended; reflexivity);
    cbn [settles run_handler];
    (split; [reflexivity|]);
    match goal with |- currentAudio (clear_if_current ?b ?X) = None /\ _ =>
      assert (Hx : currentAudio X = Some b)
        by (unfold set_handlers, upd_audio, with_events, with_audios; cbn [currentAudio];
            exact Hc');
      destruct (clear_if_current_self b X Hx) as [E1 E2]
    end;
    rewrite E1, E2; split; [reflexivity|];
    unfold set_handlers, upd_audio; cbn [audios with_events with_audios];
    rewrite !nth_upd_nth_same, Hel; eexists; split; [reflexivity|];
    destruct ended; cbn; auto.
Qed.

Lemma play_chunk_and_wait_resolved_clears (env : @Env Number) url w w' :
  run env (play_chunk_and_wait url) w = (Resolved tt, w') -> currentAudio w' = None.
Proof.
  intros Hr. rewrite run_play_chunk_and_wait in Hr. cbn [run] in Hr.
  pose proof (started_element url (Some ChunkEnded) (Some ChunkError) w) as Hel.
  cbv zeta in Hel. fold (set_up url (Some ChunkEnded) (Some ChunkError) w) in Hel.
  destruct (set_up_facts url (Some ChunkEnded) (Some ChunkError) w) as [Hc _].
  destruct (env_playback env _); [discriminate| |].
  - rewrite (fire_terminal_handler true _ _ _ ChunkEnded Hel eq_refl) in Hr.
    cbn [settles run] in Hr. injection Hr as <-.
    cbn [run_handler]. unfold clear_if_current, getCurrentAudio.
    unfold start_playing, upd_audio, with_events at 1. simpl_world.
    rewrite Hc, Nat.eqb_refl. reflexivity.
  - rewrite (fire_terminal_handler false _ _ _ ChunkError Hel eq_refl) in Hr.
    discriminate Hr.
Qed.

Lemma play_chunks_resolved_clears (env : @Env Number) chunks apiKey baseURL model voice speed :
  chunks <> [] -> forall w w',
  run env (play_chunks chunks apiKey baseURL model voice speed) w = (Resolved tt, w') ->
  currentAudio w' = None.
Proof.
  induction chunks as [|c rest IH]; intros Hne w w' Hr; [congruence|].
  cbn [play_chunks] in Hr. rewrite run_bind in Hr.
  destruct (run env (resolve_audio _ _ _ _ _ _ _) w) as [[url|e|] w1]; [|discriminate..].
  cbv beta in Hr. rewrite run_bind in Hr.
  destruct (run env (play_chunk_and_wait url) w1) as [[[]|e|] w2] eqn:E2; [|discriminate..].
  destruct rest as [|c' rest'].
  - cbn in Hr. injection Hr as <-. exact (play_chunk_and_wait_resolved_clears env url w1 w2 E2).
  - exact (IH ltac:(discriminate) w2 w' Hr).
Qed.

(** X9: a multi-chunk call that resolves leaves no audio current: the last
    chunk's [onended] cleared it. *)
Theorem playTextWithTTS_multi_resolved (env : @Env Number) text apiKey baseURL model voice speed
  w w' :
  (1 <? List.length (splitTextForTTS text MAX_TTS_CHARACTERS))%nat = true ->
  run env (playTextWithTTS text apiKey baseURL model voice speed) w = (Resolved tt, w') ->
  currentAudio w' = None.
Proof.
  intros Hm Hr. unfold playTextWithTTS, modify in Hr. cbn [bind run] in Hr. cbv zeta in Hr.
  rewrite Hm in Hr. refine (play_chunks_resolved_clears env _ apiKey baseURL model voice speed _ _ _ Hr).
  destruct (split_multi text Hm) as [c [rest ->]]. discriminate.
Qed.

(** X11: after [stopCurrentAudio] no audio is current.  The element that was
    current is no longer playing or about to play, is rewound, and keeps
    its source and handlers; every other element is unchanged; a second
    stop does nothing. *)
Theorem stopCurrentAudio_spec w :
  currentAudio (stopCurrentAudio w) = None /\
  List.length (audios (stopCurrentAudio w)) = List.length (audios w) /\
  (forall a el, currentAudio w = Some a -> nth_error (audios w) a = Some el ->
     exists el', nth_error (audios (stopCurrentAudio w)) a = Some el' /\
       el_status el' <> Playing /\ el_status el' <> PlayPending /\
       el_at_start el' = true /\ el_src el' = el_src el /\
       el_onended el' = el_onended el /\ el_onerror el' = el_onerror el) /\
  (forall b, currentAudio w <> Some b ->
     nth_error (audios (stopCurrentAudio w)) b = nth_error (audios w) b) /\
  stopCurrentAudio (stopCurrentAudio w) = stopCurrentAudio w.
Proof.
  unfold stopCurrentAudio. destruct (currentAudio w) as [c|] eqn:Ec.
  - unfold setCurrentAudio, with_current, upd_audio, with_audios. cbn [currentAudio audios].
    split; [reflexivity|]. split; [apply upd_nth_length|]. split; [|split; [|reflexivity]].
    + intros a el Ha Hel. injection Ha as <-. rewrite nth_upd_nth_same, Hel.
      eexists; split; [reflexivity|].
      unfold el_pause, el_rewind, el_with_status.
      destruct (el_status el) eqn:Es; cbn; repeat split; try discriminate; rewrite Es; discriminate.
    + intros b Hb. apply nth_upd_nth_other. congruence.
  - split; [exact Ec|]. split; [reflexivity|]. split; [intros a el Ha; congruence|].
    split; [reflexivity|]. rewrite Ec. reflexivity.
Qed.
End Outcomes.

(** *** Concrete runs *)

(** X1 at the default limit, on a text of two chunks. *)
Lemma splitTextForTTS_chunks_trimmed_witness :
  Forall (fun c => c <> [] /\ is_ws (hd 0%N c) = false /\ is_ws (last c 0%N) = false)
         (splitTextForTTS long_text MAX_TTS_CHARACTERS).
Proof. apply ChunkerExtra.splitTextForTTS_chunks_trimmed. vm_compute. reflexivity. Defined.

(** X2 on 5000 spaces. *)
Lemma splitTextForTTS_long_empty_witness : splitTextForTTS (repeat 32%N 5000) MAX_TTS_CHARACTERS = [].
Proof.
  apply (ChunkerExtra.splitTextForTTS_long_empty (repeat 32%N 5000) MAX_TTS_CHARACTERS);
    [vm_compute; reflexivity|].
  intros c Hc. apply repeat_spec in Hc as ->. reflexivity.
Defined.

(** X3 on the key of the popover's call for [hello]. *)
Lemma cacheKey_injective_witness : hello = hello /\ tts_1 = tts_1 /\ u "alloy" = u "alloy".
Proof. apply (cacheKey_injective hello hello tts_1 tts_1 (u "alloy") (u "alloy") 1%Z 1%Z). reflexivity. Defined.

(** X6: [play()] refused with [NotAllowedError]. *)
Lemma playTextWithTTS_play_refused_witness :
  let w' := snd (run env_refuse (speak hello) initial_world) in
  fst (run env_refuse (speak hello) initial_world) = Rejected (DOMException (u "NotAllowedError")) /\
  currentAudio w' = Some 0%nat /\ audio_status 0 w' = Some Idle /\
  (List.length (fetchLog w') <= 1)%nat.
Proof.
  apply (playTextWithTTS_play_refused env_refuse hello (u "sk-test") (u "https://api.openai.com/v1") tts_1 (u "alloy") 1%Z initial_world).
  - intros n q. eexists. split; reflexivity.
  - reflexivity.
Defined.

(** X7 on a text of two chunks whose audios fail. *)
Lemma playTextWithTTS_chunk_error_witness :
  let w' := snd (run env_errors (speak long_text) initial_world) in
  fst (run env_errors (speak long_text) initial_world)
    = Rejected (Error (u "Audio playback error")) /\
  currentAudio w' = None /\ audio_status 0 w' = Some Errored /\
  (List.length (fetchLog w') <= 1)%nat.
Proof.
  exact (playTextWithTTS_chunk_error env_errors long_text (u "sk-test")
           (u "https://api.openai.com/v1") tts_1 (u "alloy") 1%Z initial_world
           ltac:(vm_compute; reflexivity) (fun n q => ex_intro _ _ (conj eq_refl eq_refl))
           eq_refl).
Defined.

(** X8 on [hello]. *)
Lemma playTextWithTTS_single_cleanup_witness :
  exists a, currentAudio (snd (run env_ok (speak hello) initial_world)) = Some a /\
    forall ended : bool,
      let (w'', s) := fire_terminal ended a (snd (run env_ok (speak hello) initial_world)) in
      s = None /\ currentAudio w'' = None /\
      exists el, nth_error (audios w'') a = Some el /\
        el_status el = (if ended then Ended else Errored) /\
        el_onended el = None /\ el_onerror el = None.
Proof.
  apply (playTextWithTTS_single_cleanup env_ok hello (u "sk-test") (u "https://api.openai.com/v1") tts_1 (u "alloy") 1%Z initial_world).
  - vm_compute. reflexivity.
  - vm_compute. reflexivity.
Defined.

(** X9 on a text of two chunks. *)
Lemma playTextWithTTS_multi_resolved_witness : currentAudio (snd (run env_ok (speak long_text) initial_world)) = None.
Proof.
  apply (playTextWithTTS_multi_resolved env_ok long_text (u "sk-test") (u "https://api.openai.com/v1") tts_1 (u "alloy") 1%Z initial_world).
  - vm_compute. reflexivity.
  - vm_compute. reflexivity.
Defined.
End TtsExtra.
